(** * SqlDiffHighlighter: tokenizer, positional aligner and block grouper

    A shallow embedding of [src/components/SQLDiffHighlighter.tsx] (the
    [DiffLine]/[DiffBlock] component) and of the second component variant
    ([src/unnamed/part_000], the [DiffItem] component: its tokenizer, its
    comparison loop, the text of its panels and its copy handler), followed
    by the properties of the specification that were checked against them
    and by further properties of the code. *)

From Stdlib Require Import NArith Ascii String.
From stdpp Require Import base numbers option list.

Local Open Scope nat_scope.

(** ** JavaScript strings

    A JavaScript string is a finite sequence of UTF-16 code units.  [===] on
    strings is equality of these sequences, [s.length] is the number of code
    units and a string is falsy exactly when it is empty. *)

Abbreviation char := N.
Abbreviation jsstring := (list char).

Definition LF : char := 10%N.

(** Code units of an ASCII literal, used to write concrete inputs. *)
Definition str (s : string) : jsstring :=
  N_of_ascii <$> list_ascii_of_string s.

(** The regular-expression class [\s]: WhiteSpace and LineTerminator of
    ECMAScript (TAB, LF, VT, FF, CR, SP, NBSP, U+1680, U+2000..U+200A,
    U+2028, U+2029, U+202F, U+205F, U+3000, U+FEFF). *)
Definition is_space (c : char) : bool :=
  existsb (N.eqb c)
    [9; 10; 11; 12; 13; 32; 160; 5760; 8232; 8233; 8239; 8287; 12288; 65279]%N
  || ((8192 <=? c)%N && (c <=? 8202)%N).

(** [text.split(sep)] for a separator [sep] of one code unit: the pieces
    between the occurrences of [sep], empty pieces included; the empty
    string gives one empty piece.  [piece] is the substring collected since
    the last separator. *)
Fixpoint split_at_char (sep : char) (piece : jsstring) (s : jsstring)
  : list jsstring :=
  match s with
  | [] => [piece]
  | c :: s' =>
      if (c =? sep)%N then piece :: split_at_char sep [] s'
      else split_at_char sep (piece ++ [c]) s'
  end.

Definition split_string (sep : char) (text : jsstring) : list jsstring :=
  split_at_char sep [] text.

(** [text.split("")]: one string per code unit, nothing for the empty
    string. *)
Definition split_empty (text : jsstring) : list jsstring :=
  (λ c, [c]) <$> text.

(** [text.split(/\s+/)] and [text.split(/(\s+)/)] (RegExp.prototype
    [Symbol.split]).  The scan goes left to right; [\s+] is greedy, so a
    match is a maximal run of white space.  At a match the piece collected
    so far is pushed, then, when the expression has a capture group
    ([capture = true]), the matched run itself.  At the end of the string
    the last piece is pushed, also when it is empty.  [in_run] tells whether
    [acc] is the run being matched or the piece being collected. *)
Definition push_run (capture : bool) (run : jsstring) : list jsstring :=
  if capture then [run] else [].

Fixpoint split_scan (capture in_run : bool) (acc : jsstring) (s : jsstring)
  : list jsstring :=
  match s with
  | [] => if in_run then push_run capture acc ++ [[]] else [acc]
  | c :: s' =>
      match in_run, is_space c with
      | false, false => split_scan capture false (acc ++ [c]) s'
      | false, true => acc :: split_scan capture true [c] s'
      | true, true => split_scan capture true (acc ++ [c]) s'
      | true, false => push_run capture acc ++ split_scan capture false [c] s'
      end
  end.

Definition split_regexp_spaces (capture : bool) (text : jsstring)
  : list jsstring :=
  split_scan capture false [] text.

(** [parts.filter((part) => part.length > 0)] *)
Definition filter_nonempty (parts : list jsstring) : list jsstring :=
  filter (λ part, 0 < length part) parts.

(** ** Data model of [SQLDiffHighlighter.tsx] *)

Inductive ComparisonType := Lines | Words | Characters.

(** The string literals of the [type] fields. *)
Inductive LineType := Added | Removed | Modified | Unchanged.

Inductive BlockType := BlockChanged | BlockUnchanged.

Global Instance ComparisonType_eq_dec : EqDecision ComparisonType.
Proof. solve_decision. Defined.
Global Instance LineType_eq_dec : EqDecision LineType.
Proof. solve_decision. Defined.
Global Instance BlockType_eq_dec : EqDecision BlockType.
Proof. solve_decision. Defined.

Module DiffLine.
Record t := mk {
  type : LineType;
  originalContent : jsstring;
  modifiedContent : jsstring;
  originalLineNumber : nat;
  modifiedLineNumber : nat
}.
End DiffLine.

Module DiffBlock.
Record t := mk {
  type : BlockType;
  lines : list DiffLine.t;
  startLine : nat;
  endLine : nat
}.
End DiffBlock.

(** ** [splitText] *)

Definition splitText (text : jsstring) (type : ComparisonType)
  : list jsstring :=
  match type with
  | Lines => split_string LF text
  | Words => filter_nonempty (split_regexp_spaces true text)
  | Characters => split_empty text
  end.

(** The tokenizer of the [DiffItem] component: the same function but for
    the regular expression of [Words], which has no capture group. *)
Module DiffItemVariant.
Definition splitText (text : jsstring) (type : ComparisonType)
  : list jsstring :=
  match type with
  | Lines => split_string LF text
  | Words => filter_nonempty (split_regexp_spaces false text)
  | Characters => split_empty text
  end.
End DiffItemVariant.

(** ** [computeDiff]

    The function closes over the component's [comparisonType]; its local
    variables are the fields of [loop_state]. *)

Record loop_state := LoopState {
  result : list DiffLine.t;
  originalIndex : nat;
  modifiedIndex : nat;
  originalLineNumber : nat;
  modifiedLineNumber : nat
}.

Section computeDiff.
Variable comparisonType : ComparisonType.
Variables original modified : list jsstring.

(** [if (comparisonType === "Lines") n++] *)
Definition bump (n : nat) : nat :=
  if decide (comparisonType = Lines) then S n else n.

Definition loop_init : loop_state :=
  {| result := []; originalIndex := 0; modifiedIndex := 0;
     originalLineNumber := 1; modifiedLineNumber := 1 |}.

Definition loop_cond (st : loop_state) : bool :=
  bool_decide (originalIndex st < length original)
  || bool_decide (modifiedIndex st < length modified).

Definition loop_body (st : loop_state) : loop_state :=
  let originalItem := default [] (original !! originalIndex st) in
  let modifiedItem := default [] (modified !! modifiedIndex st) in
  if decide (length original ≤ originalIndex st) then
    {| result := result st ++
         [DiffLine.mk Added [] modifiedItem
            (originalLineNumber st) (modifiedLineNumber st)];
       originalIndex := originalIndex st;
       modifiedIndex := S (modifiedIndex st);
       originalLineNumber := originalLineNumber st;
       modifiedLineNumber := bump (modifiedLineNumber st) |}
  else if decide (length modified ≤ modifiedIndex st) then
    {| result := result st ++
         [DiffLine.mk Removed originalItem []
            (originalLineNumber st) (modifiedLineNumber st)];
       originalIndex := S (originalIndex st);
       modifiedIndex := modifiedIndex st;
       originalLineNumber := bump (originalLineNumber st);
       modifiedLineNumber := modifiedLineNumber st |}
  else if decide (originalItem = modifiedItem) then
    {| result := result st ++
         [DiffLine.mk Unchanged originalItem modifiedItem
            (originalLineNumber st) (modifiedLineNumber st)];
       originalIndex := S (originalIndex st);
       modifiedIndex := S (modifiedIndex st);
       originalLineNumber := bump (originalLineNumber st);
       modifiedLineNumber := bump (modifiedLineNumber st) |}
  else
    {| result := result st ++
         [DiffLine.mk Modified originalItem modifiedItem
            (originalLineNumber st) (modifiedLineNumber st)];
       originalIndex := S (originalIndex st);
       modifiedIndex := S (modifiedIndex st);
       originalLineNumber := bump (originalLineNumber st);
       modifiedLineNumber := bump (modifiedLineNumber st) |}.

(** The [while] loop; [None] when the iteration budget runs out before
    the loop condition becomes false. *)
Fixpoint while (fuel : nat) (st : loop_state) : option loop_state :=
  if loop_cond st then
    match fuel with
    | 0 => None
    | S fuel' => while fuel' (loop_body st)
    end
  else Some st.

Definition computeDiff : option (list DiffLine.t) :=
  result <$> while (length original + length modified) loop_init.
End computeDiff.

(** ** [groupDiffBlocks]

    [blocks] is the array being built.  [currentBlock] is a reference to an
    object that was also pushed on [blocks], so a write through it is a write
    to that element of the array: the reference is the element's index. *)

Record group_state := GroupState {
  blocks : list DiffBlock.t;
  currentBlock : option nat
}.

(** [currentBlock.type], when [currentBlock] is not [null]. *)
Definition currentBlock_type (gs : group_state) : option BlockType :=
  i ← currentBlock gs; DiffBlock.type <$> blocks gs !! i.

(** [currentBlock = {type, lines: [line], startLine, endLine};
    blocks.push(currentBlock)] *)
Definition start_block (type : BlockType) (line : DiffLine.t)
    (gs : group_state) : group_state :=
  {| blocks := blocks gs ++
       [DiffBlock.mk type [line]
          (DiffLine.originalLineNumber line)
          (DiffLine.originalLineNumber line)];
     currentBlock := Some (length (blocks gs)) |}.

(** [currentBlock.lines.push(line); currentBlock.endLine = ...] *)
Definition continue_block (line : DiffLine.t) (gs : group_state)
  : group_state :=
  match currentBlock gs with
  | Some i =>
      {| blocks :=
           alter (λ b, DiffBlock.mk (DiffBlock.type b)
                         (DiffBlock.lines b ++ [line])
                         (DiffBlock.startLine b)
                         (DiffLine.originalLineNumber line)) i (blocks gs);
         currentBlock := Some i |}
  | None => gs
  end.

(** The callback of [diffLines.forEach]. *)
Definition group_step (gs : group_state) (line : DiffLine.t) : group_state :=
  let isChanged := bool_decide (DiffLine.type line ≠ Unchanged) in
  if isChanged then
    if bool_decide (currentBlock gs = None)
       || bool_decide (currentBlock_type gs = Some BlockUnchanged)
    then start_block BlockChanged line gs
    else continue_block line gs
  else
    if bool_decide (currentBlock gs = None)
       || bool_decide (currentBlock_type gs = Some BlockChanged)
    then start_block BlockUnchanged line gs
    else continue_block line gs.

Definition groupDiffBlocks (diffLines : list DiffLine.t) : list DiffBlock.t :=
  blocks (foldl group_step {| blocks := []; currentBlock := None |} diffLines).

(** ** The component: state, [diffResult], [stats] *)

Record component := Component {
  originalSQL : jsstring;
  modifiedSQL : jsstring;
  comparisonType : ComparisonType;
  showUnchanged : bool
}.

Definition diffResult (c : component) : option (list DiffBlock.t) :=
  if bool_decide (originalSQL c = [] ∧ modifiedSQL c = []) then Some []
  else
    let originalParts := splitText (originalSQL c) (comparisonType c) in
    let modifiedParts := splitText (modifiedSQL c) (comparisonType c) in
    diffLines ← computeDiff (comparisonType c) originalParts modifiedParts;
    Some (groupDiffBlocks diffLines).

Record Stats := mkStats { stat_added : nat; stat_removed : nat; stat_modified : nat }.

(** [diffResult.reduce((acc, block) =>
      acc + block.lines.filter((line) => line.type === t).length, 0)] *)
Definition count_type (t : LineType) (bs : list DiffBlock.t) : nat :=
  foldl (λ acc block,
           acc + length (filter (λ line, DiffLine.type line = t)
                           (DiffBlock.lines block))) 0 bs.

Definition stats (c : component) : option Stats :=
  bs ← diffResult c;
  Some (mkStats (count_type Added bs) (count_type Removed bs)
          (count_type Modified bs)).

(** ** [handleCopy]

    The handler runs in a world made of the component's state and of the
    browser: the clipboard, the alerts shown and the console.  A browser
    call either completes or throws; [await] of a rejected promise throws
    inside the [try]. *)

Record browser := Browser {
  clipboard : jsstring;
  alerts : list string;
  console_errors : list (string * string)
}.

Record world := World { ui : component; env : browser }.

Inductive completion (A : Type) :=
| Normal (a : A)
| Throw (err : string).
Arguments Normal {A} a.
Arguments Throw {A} err.

Definition action (A : Type) := world → completion A * world.

Definition alert (msg : string) : action unit :=
  λ w, (Normal (),
        {| ui := ui w;
           env := {| clipboard := clipboard (env w);
                     alerts := alerts (env w) ++ [msg];
                     console_errors := console_errors (env w) |} |}).

Definition console_error (msg : string) (err : string) : action unit :=
  λ w, (Normal (),
        {| ui := ui w;
           env := {| clipboard := clipboard (env w);
                     alerts := alerts (env w);
                     console_errors := console_errors (env w) ++ [(msg, err)] |} |}).

Definition seq_action {A B} (a : action A) (k : A → action B) : action B :=
  λ w, match a w with
       | (Normal x, w') => k x w'
       | (Throw err, w') => (Throw err, w')
       end.

Definition try_catch {A} (body : action A) (handler : string → action A)
  : action A :=
  λ w, match body w with
       | (Normal x, w') => (Normal x, w')
       | (Throw err, w') => handler err w'
       end.

Section handleCopy.
(** [navigator.clipboard.writeText]: a capability of the browser, which
    holds no reference to the component's state. *)
Variable writeText : jsstring → browser → completion unit * browser.

Definition clipboard_writeText (text : jsstring) : action unit :=
  λ w, let '(r, e) := writeText text (env w) in (r, {| ui := ui w; env := e |}).

Definition handleCopy (text : jsstring) : action unit :=
  try_catch
    (seq_action (clipboard_writeText text)
       (λ _, alert "Copied to clipboard!"))
    (λ err, seq_action (console_error "Failed to copy:" err)
              (λ _, alert "Failed to copy to clipboard")).
End handleCopy.

(** ** The loop of [computeDiff] after [k] iterations

    [emitted k] is the pair pushed by iteration [k] and [state_at k] the
    values of the local variables after [k] iterations; that the loop really
    goes through these states is [loop_body_state_at] below. *)

Section trace.
Variable comparisonType : ComparisonType.
Variables original modified : list jsstring.

(** A position counter after [advances] increments. *)
Definition counter (advances : nat) : nat :=
  if decide (comparisonType = Lines) then S advances else 1.

Definition emitted (k : nat) : DiffLine.t :=
  let originalItem := default [] (original !! k) in
  let modifiedItem := default [] (modified !! k) in
  if decide (length original ≤ k) then
    DiffLine.mk Added [] modifiedItem (counter (length original)) (counter k)
  else if decide (length modified ≤ k) then
    DiffLine.mk Removed originalItem [] (counter k) (counter (length modified))
  else if decide (originalItem = modifiedItem) then
    DiffLine.mk Unchanged originalItem modifiedItem (counter k) (counter k)
  else
    DiffLine.mk Modified originalItem modifiedItem (counter k) (counter k).

Definition state_at (k : nat) : loop_state :=
  {| result := emitted <$> seq 0 k;
     originalIndex := k `min` length original;
     modifiedIndex := k `min` length modified;
     originalLineNumber := counter (k `min` length original);
     modifiedLineNumber := counter (k `min` length modified) |}.
End trace.

(** The contents of one side of a pair sequence, the placeholders of the
    pairs emitted while that side was exhausted left out. *)
Definition original_side (ds : list DiffLine.t) : list jsstring :=
  DiffLine.originalContent <$> filter (λ d, DiffLine.type d ≠ Added) ds.

Definition modified_side (ds : list DiffLine.t) : list jsstring :=
  DiffLine.modifiedContent <$> filter (λ d, DiffLine.type d ≠ Removed) ds.

(** ** Notions used to state the properties *)

(** All the lines held by the blocks of the array, in order. *)
Definition flat_lines (bs : list DiffBlock.t) : list DiffLine.t :=
  concat (DiffBlock.lines <$> bs).

(** [currentBlock] is [null] while the array is empty and afterwards
    refers to the last block pushed. *)
Definition current_is_last (gs : group_state) : Prop :=
  match currentBlock gs with
  | None => blocks gs = []
  | Some i => S i = length (blocks gs)
  end.

(** Tokens without white space, and tokens made of white space only. *)
Definition whitespace_free (t : jsstring) : Prop :=
  Forall (λ c, is_space c = false) t.

Definition all_space (t : jsstring) : Prop :=
  Forall (λ c, is_space c = true) t.

(** A token that starts with a code unit outside [\s]. *)
Definition is_word (t : jsstring) : bool :=
  match t with
  | c :: _ => negb (is_space c)
  | [] => false
  end.

(** Neighbouring tokens are of different kinds: a word is followed by white
    space and white space by a word. *)
Fixpoint alternating (ts : list jsstring) : Prop :=
  match ts with
  | t1 :: rest =>
      match rest with
      | t2 :: _ => is_word t1 ≠ is_word t2
      | [] => True
      end ∧ alternating rest
  | [] => True
  end.

(** What the scan has collected is of the kind its mode says: a run of
    white space, or a piece without white space. *)
Definition acc_ok (in_run : bool) (acc : jsstring) : Prop :=
  if in_run then all_space acc ∧ acc ≠ [] else whitespace_free acc.

(** ** What [renderDiffLine] shows in the line-number columns

    [line.type !== "added" ? line.originalLineNumber : ""] and
    [line.type !== "removed" ? line.modifiedLineNumber : ""]; [None] is the
    empty column. *)

Definition shownOriginalLineNumber (line : DiffLine.t) : option nat :=
  if decide (DiffLine.type line ≠ Added)
  then Some (DiffLine.originalLineNumber line) else None.

Definition shownModifiedLineNumber (line : DiffLine.t) : option nat :=
  if decide (DiffLine.type line ≠ Removed)
  then Some (DiffLine.modifiedLineNumber line) else None.

(** ** The [DiffItem] component ([src/unnamed/part_000]) *)

Inductive ItemType := ItemUnchanged | ItemChanged | ItemAdded | ItemRemoved.

Global Instance ItemType_eq_dec : EqDecision ItemType.
Proof. solve_decision. Defined.

Module DiffItem.
Record t := mk {
  value : jsstring;
  type : ItemType;
  index : nat
}.
End DiffItem.

Inductive Side := Left | Right.

Module DiffItemComponent.

(** [if (cond) items.push(item)] *)
Definition push_if (cond : bool) (item : DiffItem.t) (items : list DiffItem.t)
  : list DiffItem.t :=
  if cond then items ++ [item] else items.

(** A string is truthy when it is not empty. *)
Definition truthy (part : jsstring) : bool := bool_decide (part ≠ []).

Section diffResult.
Variables parts1 parts2 : list jsstring.

(** The body of [for (let i = 0; i < maxLength; i++)], on the pair
    [(diff1, diff2)]. *)
Definition for_body (diffs : list DiffItem.t * list DiffItem.t) (i : nat)
  : list DiffItem.t * list DiffItem.t :=
  let '(diff1, diff2) := diffs in
  let part1 := default [] (parts1 !! i) in
  let part2 := default [] (parts2 !! i) in
  if decide (part1 = part2) then
    (diff1 ++ [DiffItem.mk part1 ItemUnchanged i],
     diff2 ++ [DiffItem.mk part2 ItemUnchanged i])
  else
    let diff1 :=
      push_if (truthy part1)
        (DiffItem.mk part1
           (if decide (length parts2 ≤ i) then ItemRemoved else ItemChanged) i)
        diff1 in
    let diff2 :=
      push_if (truthy part2)
        (DiffItem.mk part2
           (if decide (length parts1 ≤ i) then ItemAdded else ItemChanged) i)
        diff2 in
    let diff1 :=
      push_if (negb (truthy part1) && truthy part2)
        (DiffItem.mk [] ItemRemoved i) diff1 in
    let diff2 :=
      push_if (negb (truthy part2) && truthy part1)
        (DiffItem.mk [] ItemAdded i) diff2 in
    (diff1, diff2).

Definition diff_parts : list DiffItem.t * list DiffItem.t :=
  let maxLength := length parts1 `max` length parts2 in
  foldl for_body ([], []) (seq 0 maxLength).
End diffResult.

Definition diffResult (query1 query2 : jsstring) (splitType : ComparisonType)
  : list DiffItem.t * list DiffItem.t :=
  diff_parts (DiffItemVariant.splitText query1 splitType)
    (DiffItemVariant.splitText query2 splitType).

Definition getSeparator (splitType : ComparisonType) : jsstring :=
  match splitType with
  | Lines => [LF]
  | Words => [32%N]
  | Characters => []
  end.

(** The text of the [span] that [renderDiffItem] returns: the value, then
    the separator unless the item is the last of its panel.  [length - 1]
    is only compared with an index, so the truncated subtraction of [nat]
    decides as the subtraction of numbers does. *)
Definition renderDiffItem (splitType : ComparisonType)
    (diffs : list DiffItem.t * list DiffItem.t)
    (item : DiffItem.t) (side : Side) : jsstring :=
  DiffItem.value item ++
  (if decide (DiffItem.index item
              < match side with
                | Left => length diffs.1 - 1
                | Right => length diffs.2 - 1
                end)
   then getSeparator splitType else []).

(** The text of the panel that [renderDiffPanel] returns for the items of
    one side. *)
Definition renderDiffPanel (splitType : ComparisonType)
    (diffs : list DiffItem.t * list DiffItem.t)
    (diffItems : list DiffItem.t) (side : Side) : jsstring :=
  concat ((λ item, renderDiffItem splitType diffs item side) <$> diffItems).

(** [handleCopy] of this component: as the other one, without the console. *)
Definition handleCopy
    (writeText : jsstring → browser → completion unit * browser)
    (text : jsstring) : action unit :=
  try_catch
    (seq_action (clipboard_writeText writeText text)
       (λ _, alert "Copied to clipboard!"))
    (λ _, alert "Failed to copy to clipboard").

End DiffItemComponent.

(** ** Further notions used to state the properties *)

(** [parts.join(sep)] *)
Fixpoint join (sep : jsstring) (parts : list jsstring) : jsstring :=
  match parts with
  | [] => []
  | part :: rest =>
      match rest with
      | [] => part
      | _ :: _ => part ++ sep ++ join sep rest
      end
  end.

(** The coarse category of a pair: [line.type !== "unchanged"]. *)
Definition coarse (line : DiffLine.t) : BlockType :=
  if decide (DiffLine.type line ≠ Unchanged) then BlockChanged
  else BlockUnchanged.

(** A block holds at least one line, its lines are of its category, and its
    bounds are the original line numbers of its first and last line. *)
Definition block_ok (b : DiffBlock.t) : Prop :=
  Forall (λ line, coarse line = DiffBlock.type b) (DiffBlock.lines b)
  ∧ DiffLine.originalLineNumber <$> head (DiffBlock.lines b)
    = Some (DiffBlock.startLine b)
  ∧ DiffLine.originalLineNumber <$> last (DiffBlock.lines b)
    = Some (DiffBlock.endLine b).

(** The block opened for a line, and a block with one more line. *)
Definition new_block (line : DiffLine.t) : DiffBlock.t :=
  DiffBlock.mk (coarse line) [line]
    (DiffLine.originalLineNumber line) (DiffLine.originalLineNumber line).

Definition extend_block (line : DiffLine.t) (b : DiffBlock.t) : DiffBlock.t :=
  DiffBlock.mk (DiffBlock.type b) (DiffBlock.lines b ++ [line])
    (DiffBlock.startLine b) (DiffLine.originalLineNumber line).

(** Neighbouring blocks are of different categories. *)
Definition blocks_alternate (bs : list DiffBlock.t) : Prop :=
  ∀ i b1 b2, bs !! i = Some b1 → bs !! S i = Some b2 →
             DiffBlock.type b1 ≠ DiffBlock.type b2.

(** What the loop of the grouper keeps. *)
Definition grouper_inv (gs : group_state) : Prop :=
  current_is_last gs
  ∧ Forall block_ok (blocks gs)
  ∧ blocks_alternate (blocks gs).

(** The items that iteration [k] of the loop of the [DiffItem] component
    pushes on [diff1] and on [diff2]; that it does is [for_body_push]
    below. *)
Definition item1 (parts1 parts2 : list jsstring) (k : nat) : DiffItem.t :=
  let part1 := default [] (parts1 !! k) in
  let part2 := default [] (parts2 !! k) in
  DiffItem.mk part1
    (if decide (part1 = part2) then ItemUnchanged
     else if decide (part1 = []) then ItemRemoved
     else if decide (length parts2 ≤ k) then ItemRemoved else ItemChanged)
    k.

Definition item2 (parts1 parts2 : list jsstring) (k : nat) : DiffItem.t :=
  let part1 := default [] (parts1 !! k) in
  let part2 := default [] (parts2 !! k) in
  DiffItem.mk part2
    (if decide (part1 = part2) then ItemUnchanged
     else if decide (part2 = []) then ItemAdded
     else if decide (length parts1 ≤ k) then ItemAdded else ItemChanged)
    k.

(** The classification of the pairs, position by position. *)
Fixpoint pair_types (original modified : list jsstring) : list LineType :=
  match original, modified with
  | [], _ => replicate (length modified) Added
  | _ :: _, [] => replicate (length original) Removed
  | x :: original', y :: modified' =>
      (if decide (x = y) then Unchanged else Modified)
      :: pair_types original' modified'
  end.

(** A pair seen from the other side. *)
Definition swap_sides (d : DiffLine.t) : DiffLine.t :=
  DiffLine.mk
    (match DiffLine.type d with
     | Added => Removed
     | Removed => Added
     | t => t
     end)
    (DiffLine.modifiedContent d) (DiffLine.originalContent d)
    (DiffLine.modifiedLineNumber d) (DiffLine.originalLineNumber d).

(** ** Scenarios of the specification, run on the embedding *)

Example computeDiff_scenario3 :
  computeDiff Lines (splitText (str "A" ++ [LF] ++ str "B") Lines)
    (splitText (str "A" ++ [LF] ++ str "B" ++ [LF] ++ str "C") Lines)
  = Some [DiffLine.mk Unchanged (str "A") (str "A") 1 1;
          DiffLine.mk Unchanged (str "B") (str "B") 2 2;
          DiffLine.mk Added [] (str "C") 3 3].
Proof. vm_compute. reflexivity. Qed.

Example diffResult_scenario2 :
  let c := Component (str "SELECT 1" ++ [LF] ++ str "FROM t")
             (str "SELECT 2" ++ [LF] ++ str "FROM t") Lines false in
  diffResult c
  = Some [DiffBlock.mk BlockChanged
            [DiffLine.mk Modified (str "SELECT 1") (str "SELECT 2") 1 1] 1 1;
          DiffBlock.mk BlockUnchanged
            [DiffLine.mk Unchanged (str "FROM t") (str "FROM t") 2 2] 2 2]
  ∧ stats c = Some (mkStats 0 0 1).
Proof. vm_compute. split; reflexivity. Qed.

Example splitText_words :
  splitText (str " a  b") Words = [str " "; str "a"; str "  "; str "b"]
  ∧ DiffItemVariant.splitText (str " a  b") Words = [str "a"; str "b"].
Proof. vm_compute. split; reflexivity. Qed.

(** ** The loop of [computeDiff] *)

Section computeDiff_facts.
Variable comparisonType : ComparisonType.
Variables original modified : list jsstring.

Local Abbreviation n := (length original).
Local Abbreviation m := (length modified).
Local Abbreviation body := (loop_body comparisonType original modified).
Local Abbreviation at_ := (state_at comparisonType original modified).

Lemma bump_counter k : bump comparisonType (counter comparisonType k)
                       = counter comparisonType (S k).
Proof. unfold bump, counter. by case_decide. Qed.

Lemma state_at_0 : at_ 0 = loop_init.
Proof. unfold state_at, loop_init, counter. simpl. by case_decide. Qed.

Lemma loop_cond_state_at k :
  loop_cond original modified (at_ k) = bool_decide (k < n `max` m).
Proof.
  unfold loop_cond, state_at; simpl.
  apply eq_true_iff_eq. rewrite orb_true_iff, !bool_decide_eq_true. lia.
Qed.

Lemma loop_body_state_at k : k < n `max` m → body (at_ k) = at_ (S k).
Proof.
  intros Hk. unfold loop_body, state_at.
  rewrite seq_S, fmap_app; cbn [result originalIndex modifiedIndex
    originalLineNumber modifiedLineNumber fmap list_fmap Nat.add].
  generalize (emitted comparisonType original modified <$> seq 0 k) as pre.
  intros pre. unfold emitted.
  destruct (le_lt_dec n k), (le_lt_dec m k); try lia;
    repeat match goal with
      | |- context [?a `min` ?b] =>
          first [ replace (a `min` b) with a by lia
                | replace (a `min` b) with b by lia ]
      end;
    repeat case_decide; try lia; rewrite ?bump_counter;
    try reflexivity; try congruence.
Qed.

Lemma iter_state_at k :
  k ≤ n `max` m → Nat.iter k body loop_init = at_ k.
Proof.
  induction k as [|k IH]; intros Hk; simpl.
  - by rewrite state_at_0.
  - rewrite IH by lia. apply loop_body_state_at. lia.
Qed.

(** The loop leaves with the state reached after [max n m] iterations as
    soon as the budget covers the iterations that remain. *)
Lemma while_state_at fuel k :
  k ≤ n `max` m → n `max` m ≤ k + fuel →
  while comparisonType original modified fuel (at_ k) = Some (at_ (n `max` m)).
Proof.
  revert k. induction fuel as [|fuel IH]; intros k Hk Hfuel.
  - replace k with (n `max` m) by lia. simpl.
    rewrite loop_cond_state_at, bool_decide_eq_false_2 by lia. done.
  - simpl. rewrite loop_cond_state_at. case_bool_decide.
    + rewrite loop_body_state_at by done. apply IH; lia.
    + by replace k with (n `max` m) by lia.
Qed.

Lemma computeDiff_closed :
  computeDiff comparisonType original modified
  = Some (emitted comparisonType original modified <$> seq 0 (n `max` m)).
Proof.
  unfold computeDiff. rewrite <- state_at_0.
  rewrite while_state_at by lia. done.
Qed.

Lemma lookup_emitted N k d :
  (emitted comparisonType original modified <$> seq 0 N) !! k = Some d
  ↔ k < N ∧ d = emitted comparisonType original modified k.
Proof.
  rewrite list_lookup_fmap, fmap_Some. split.
  - intros (j & Hj & ->). apply lookup_seq in Hj as [-> ?]. done.
  - intros [? ->]. exists k. by rewrite lookup_seq_lt.
Qed.
End computeDiff_facts.

(** ** Lists built over an initial segment of the indices *)

Lemma filter_fmap_seq_prefix {A} (f : nat → A) (P : A → Prop)
    `{!∀ x, Decision (P x)} (a N : nat) :
  a ≤ N →
  (∀ k, k < a → P (f k)) →
  (∀ k, a ≤ k → k < N → ¬ P (f k)) →
  filter P (f <$> seq 0 N) = f <$> seq 0 a.
Proof.
  revert a. induction N as [|N IH]; intros a Ha Hin Hout.
  - by replace a with 0 by lia.
  - rewrite seq_S, fmap_app, filter_app. simpl.
    destruct (decide (a = S N)) as [->|Hne].
    + rewrite (IH N) by (intros; first [lia | apply Hin; lia]).
      rewrite filter_cons_True by (apply Hin; lia).
      by rewrite seq_S, fmap_app.
    + rewrite (IH a) by (intros; first [lia | apply Hin; lia | apply Hout; lia]).
      rewrite filter_cons_False by (apply Hout; lia).
      by rewrite app_nil_r.
Qed.

Lemma fmap_seq_lookup {A} (l : list A) (h : nat → A) :
  (∀ k, k < length l → l !! k = Some (h k)) →
  h <$> seq 0 (length l) = l.
Proof.
  intros Hh. apply list_eq; intros i. rewrite list_lookup_fmap.
  destruct (le_lt_dec (length l) i).
  - rewrite lookup_seq_ge by done. symmetry. by apply lookup_ge_None.
  - rewrite lookup_seq_lt by done. simpl. by rewrite Hh.
Qed.

Lemma lookup_default (l : list jsstring) k :
  k < length l → l !! k = Some (default [] (l !! k)).
Proof.
  intros Hk. destruct (l !! k) eqn:E; [done|].
  apply lookup_ge_None in E. lia.
Qed.

Section sides.
Variable comparisonType : ComparisonType.
Variables original modified : list jsstring.

Local Abbreviation n := (length original).
Local Abbreviation m := (length modified).
Local Abbreviation pair := (emitted comparisonType original modified).

Lemma original_side_emitted :
  original_side (pair <$> seq 0 (n `max` m)) = original.
Proof.
  unfold original_side.
  rewrite (filter_fmap_seq_prefix _ _ n).
  - rewrite <- list_fmap_compose. apply fmap_seq_lookup.
    intros k Hk. rewrite lookup_default by done. f_equal.
    unfold emitted. simpl. by repeat case_decide; try lia.
  - lia.
  - intros k Hk. unfold emitted. by repeat case_decide; try lia.
  - intros k Hk _. unfold emitted. case_decide; [|lia]. simpl. by intros [].
Qed.

Lemma modified_side_emitted :
  modified_side (pair <$> seq 0 (n `max` m)) = modified.
Proof.
  unfold modified_side.
  rewrite (filter_fmap_seq_prefix _ _ m).
  - rewrite <- list_fmap_compose. apply fmap_seq_lookup.
    intros k Hk. rewrite lookup_default by done. f_equal.
    unfold emitted. simpl. by repeat case_decide; try lia.
  - lia.
  - intros k Hk. unfold emitted. by repeat case_decide; try lia.
  - intros k Hk Hlt. unfold emitted. repeat case_decide; try lia.
    simpl. by intros [].
Qed.
End sides.

(** ** Properties of the aligner *)

(** C1. For all texts A and B and every granularity G,
    [computeDiff] on the tokens of A and B returns a pair sequence that
    holds every token of both sides exactly once and in order: the
    original-side contents, the placeholders of the [Added] pairs left out,
    are the tokens of A, and the modified-side contents, the placeholders of
    the [Removed] pairs left out, are the tokens of B; the placeholders left
    out are empty. *)
Theorem C1_align_keeps_every_token (A B : jsstring) (G : ComparisonType) :
  ∃ ds, computeDiff G (splitText A G) (splitText B G) = Some ds
        ∧ original_side ds = splitText A G
        ∧ modified_side ds = splitText B G
        ∧ Forall (λ d, (DiffLine.type d = Added → DiffLine.originalContent d = [])
                       ∧ (DiffLine.type d = Removed
                          → DiffLine.modifiedContent d = [])) ds.
Proof.
  eexists. split; [apply computeDiff_closed|]. split; [|split].
  - apply original_side_emitted.
  - apply modified_side_emitted.
  - apply Forall_fmap, Forall_seq. intros k _. simpl.
    unfold emitted. by repeat case_decide.
Qed.

(** C2. The aligner starts with both cursors at zero and runs as many
    iterations as the longer of the two sequences has tokens: the loop
    condition holds before each of them and fails after the last, and the
    result is what the last iteration leaves.  Iteration [k], run in the
    state [st] reached after [k] iterations, pushes the pair found at
    position [k] of the result: with the original cursor
    exhausted an [Added] pair with empty original content and the modified
    token at its cursor, only the modified cursor advancing; else with the
    modified cursor exhausted a [Removed] pair with the original token and
    empty modified content, only the original cursor advancing; else the two
    tokens under the cursors, which stand at the same position, as
    [Unchanged] when they are equal and [Modified] otherwise, both cursors
    advancing. *)
Theorem C2_align_step_by_step (G : ComparisonType)
    (original modified : list jsstring) :
  let iterations := length original `max` length modified in
  ∃ ds, computeDiff G original modified = Some ds
    ∧ originalIndex loop_init = 0 ∧ modifiedIndex loop_init = 0
    ∧ length ds = iterations
    ∧ ds = result (Nat.iter iterations (loop_body G original modified)
                     loop_init)
    ∧ loop_cond original modified
        (Nat.iter iterations (loop_body G original modified) loop_init)
      = false
    ∧ ∀ k, k < iterations →
        let st := Nat.iter k (loop_body G original modified) loop_init in
        let st' := loop_body G original modified st in
        loop_cond original modified st = true
        ∧ ∃ d, ds !! k = Some d ∧ result st' = result st ++ [d]
          ∧ if decide (length original ≤ originalIndex st) then
              DiffLine.type d = Added
              ∧ DiffLine.originalContent d = []
              ∧ modified !! modifiedIndex st = Some (DiffLine.modifiedContent d)
              ∧ originalIndex st' = originalIndex st
              ∧ modifiedIndex st' = S (modifiedIndex st)
            else if decide (length modified ≤ modifiedIndex st) then
              DiffLine.type d = Removed
              ∧ original !! originalIndex st = Some (DiffLine.originalContent d)
              ∧ DiffLine.modifiedContent d = []
              ∧ originalIndex st' = S (originalIndex st)
              ∧ modifiedIndex st' = modifiedIndex st
            else
              original !! originalIndex st = Some (DiffLine.originalContent d)
              ∧ modified !! modifiedIndex st = Some (DiffLine.modifiedContent d)
              ∧ originalIndex st = modifiedIndex st
              ∧ DiffLine.type d
                = (if decide (DiffLine.originalContent d
                              = DiffLine.modifiedContent d)
                   then Unchanged else Modified)
              ∧ originalIndex st' = S (originalIndex st)
              ∧ modifiedIndex st' = S (modifiedIndex st).
Proof.
  intros iterations. subst iterations.
  eexists. split; [apply computeDiff_closed|]. do 2 (split; [done|]).
  split; [by rewrite length_fmap, length_seq|].
  split; [by rewrite iter_state_at|].
  split; [rewrite iter_state_at, loop_cond_state_at by done;
          apply bool_decide_eq_false_2; lia|].
  intros k Hk. cbv zeta.
  rewrite iter_state_at by lia. rewrite loop_body_state_at by done.
  split; [rewrite loop_cond_state_at; by apply bool_decide_eq_true_2|].
  exists (emitted G original modified k). split; [by apply lookup_emitted|].
  split; [unfold state_at; cbn [result]; by rewrite seq_S, fmap_app|].
  unfold state_at, emitted; cbn [originalIndex modifiedIndex].
  destruct (le_lt_dec (length original) k), (le_lt_dec (length modified) k);
    try lia;
    repeat match goal with
      | |- context [?a `min` ?b] =>
          first [ replace (a `min` b) with a by lia
                | replace (a `min` b) with b by lia ]
      end;
    repeat case_decide; try lia;
    cbn [DiffLine.type DiffLine.originalContent DiffLine.modifiedContent];
    rewrite <- ?lookup_default by lia; repeat split; try done; lia.
Qed.

(** C6. Aligning the tokens of a text with themselves classifies every
    pair as [Unchanged]. *)
Theorem C6_align_self_unchanged (A : jsstring) (G : ComparisonType) :
  ∃ ds, computeDiff G (splitText A G) (splitText A G) = Some ds
        ∧ Forall (λ d, DiffLine.type d = Unchanged) ds.
Proof.
  eexists. split; [apply computeDiff_closed|].
  apply Forall_fmap, Forall_seq. intros k Hk. simpl.
  unfold emitted. by repeat case_decide; try lia.
Qed.

(** C8. The position counters carried by the pairs start at 1; under
    [Lines] the pair pushed by an iteration carries, on each side, 1 plus
    the number of advances made so far by that side's cursor, and under
    [Words] and [Characters] every pair carries 1 on both sides. *)
Theorem C8_position_counters (G : ComparisonType)
    (original modified : list jsstring) :
  ∃ ds, computeDiff G original modified = Some ds
    ∧ originalLineNumber loop_init = 1 ∧ modifiedLineNumber loop_init = 1
    ∧ ∀ k d, ds !! k = Some d →
        let st := Nat.iter k (loop_body G original modified) loop_init in
        originalIndex st = k `min` length original
        ∧ modifiedIndex st = k `min` length modified
        ∧ match G with
          | Lines =>
              DiffLine.originalLineNumber d = 1 + originalIndex st
              ∧ DiffLine.modifiedLineNumber d = 1 + modifiedIndex st
          | Words | Characters =>
              DiffLine.originalLineNumber d = 1
              ∧ DiffLine.modifiedLineNumber d = 1
          end.
Proof.
  eexists. split; [apply computeDiff_closed|]. do 2 (split; [done|]).
  intros k d [Hk ->]%lookup_emitted. simpl.
  rewrite iter_state_at by lia. do 2 (split; [done|]).
  unfold state_at, emitted, counter; simpl.
  destruct G; repeat case_decide; try done; simpl; lia.
Qed.

(** C10. The aligner emits as many pairs as the longer of its two
    inputs has tokens: after [k] iterations there are [k] pairs, both
    cursors have advanced [k] times or stand at the end of their side, and
    the loop leaves after [max] iterations. *)
Theorem C10_align_length (G : ComparisonType)
    (original modified : list jsstring) :
  ∃ ds, computeDiff G original modified = Some ds
    ∧ length ds = length original `max` length modified
    ∧ ∀ k, k ≤ length ds →
        let st := Nat.iter k (loop_body G original modified) loop_init in
        length (result st) = k
        ∧ originalIndex st = k `min` length original
        ∧ modifiedIndex st = k `min` length modified
        ∧ loop_cond original modified st = bool_decide (k < length ds).
Proof.
  eexists. split; [apply computeDiff_closed|].
  rewrite length_fmap, length_seq. split; [done|].
  intros k Hk. simpl. rewrite iter_state_at by done.
  rewrite loop_cond_state_at. unfold state_at; simpl.
  by rewrite length_fmap, length_seq.
Qed.

(** ** The block grouper *)

Lemma flat_lines_app bs1 bs2 :
  flat_lines (bs1 ++ bs2) = flat_lines bs1 ++ flat_lines bs2.
Proof. unfold flat_lines. by rewrite fmap_app, concat_app. Qed.

Lemma start_block_spec type line gs :
  current_is_last (start_block type line gs)
  ∧ flat_lines (blocks (start_block type line gs))
    = flat_lines (blocks gs) ++ [line].
Proof.
  split.
  - unfold current_is_last, start_block; simpl. rewrite length_app; simpl. lia.
  - unfold start_block; simpl. by rewrite flat_lines_app.
Qed.

Lemma continue_block_spec line gs :
  current_is_last gs → currentBlock gs ≠ None →
  current_is_last (continue_block line gs)
  ∧ flat_lines (blocks (continue_block line gs))
    = flat_lines (blocks gs) ++ [line].
Proof.
  unfold current_is_last, continue_block.
  destruct (currentBlock gs) as [i|]; [|done]. intros Hlast _. simpl.
  split; [by rewrite length_alter|].
  destruct (blocks gs) as [|b0 bs0] using rev_ind; [done|].
  rewrite length_app in Hlast; simpl in Hlast.
  rewrite alter_app_r_alt by lia. replace (i - length bs0) with 0 by lia.
  simpl. rewrite !flat_lines_app. unfold flat_lines; simpl.
  by rewrite !app_nil_r, app_assoc.
Qed.

Lemma group_step_spec gs line :
  current_is_last gs →
  current_is_last (group_step gs line)
  ∧ flat_lines (blocks (group_step gs line)) = flat_lines (blocks gs) ++ [line].
Proof.
  intros Hlast. unfold group_step.
  destruct (bool_decide (DiffLine.type line ≠ Unchanged));
    case_bool_decide; simpl;
    try apply start_block_spec;
    case_bool_decide;
    first [ apply start_block_spec | by apply continue_block_spec ].
Qed.

Lemma foldl_group_step ds gs :
  current_is_last gs →
  flat_lines (blocks (foldl group_step gs ds)) = flat_lines (blocks gs) ++ ds.
Proof.
  revert gs. induction ds as [|d ds IH]; intros gs Hlast; simpl.
  - by rewrite app_nil_r.
  - destruct (group_step_spec gs d Hlast) as [Hlast' Hflat].
    rewrite IH, Hflat by done. by rewrite <- app_assoc.
Qed.

(** C7. For every sequence of classified pairs, the [lines] of the
    blocks returned by [groupDiffBlocks], concatenated in block order, are
    the input sequence. *)
Theorem C7_group_roundtrip (diffLines : list DiffLine.t) :
  concat (DiffBlock.lines <$> groupDiffBlocks diffLines) = diffLines.
Proof.
  unfold groupDiffBlocks.
  exact (foldl_group_step diffLines {| blocks := []; currentBlock := None |}
           eq_refl).
Qed.

(** ** The tokenizer *)

Lemma acc_ok_snoc in_run acc c :
  acc_ok in_run acc → is_space c = in_run → acc_ok in_run (acc ++ [c]).
Proof.
  unfold acc_ok, all_space, whitespace_free. intros Hacc Hc.
  destruct in_run.
  - destruct Hacc as [Hacc _]. split.
    + apply Forall_app. split; [done|]. by constructor.
    + by destruct acc.
  - apply Forall_app. split; [done|]. by constructor.
Qed.

Lemma acc_ok_singleton c : acc_ok (is_space c) [c].
Proof.
  unfold acc_ok, all_space, whitespace_free.
  destruct (is_space c) eqn:Hc; [split; [|done]|]; by repeat constructor.
Qed.

Lemma concat_filter_nonempty (parts : list jsstring) :
  concat (filter_nonempty parts) = concat parts.
Proof.
  unfold filter_nonempty. induction parts as [|p parts IH]; [done|].
  rewrite filter_cons. case_decide; simpl; rewrite IH; [done|].
  destruct p; [done|]. simpl in *; lia.
Qed.

Lemma elem_of_filter_nonempty (t : jsstring) parts :
  t ∈ filter_nonempty parts ↔ t ≠ [] ∧ t ∈ parts.
Proof.
  unfold filter_nonempty. rewrite list_elem_of_filter.
  destruct t; simpl; split; intros [? ?]; split; try done; lia.
Qed.

Lemma split_scan_capture_concat in_run acc s :
  concat (split_scan true in_run acc s) = acc ++ s.
Proof.
  revert in_run acc. induction s as [|c s IH]; intros in_run acc; simpl.
  - destruct in_run; simpl; by rewrite ?app_nil_r.
  - destruct in_run, (is_space c); simpl; rewrite IH; simpl;
      by rewrite <- ?app_assoc.
Qed.

Lemma split_scan_capture_kinds in_run acc s :
  acc_ok in_run acc →
  Forall (λ t, whitespace_free t ∨ all_space t) (split_scan true in_run acc s).
Proof.
  revert in_run acc. induction s as [|c s IH]; intros in_run acc Hacc; simpl.
  - destruct in_run; simpl in *.
    + destruct Hacc as [Hacc _].
      constructor; [by right|]. constructor; [|done]. left. constructor.
    + constructor; [by left|done].
  - destruct in_run eqn:Hrun, (is_space c) eqn:Hc; simpl.
    + apply IH. by apply acc_ok_snoc.
    + constructor; [right; apply Hacc|]. apply IH.
      rewrite <- Hc. apply acc_ok_singleton.
    + constructor; [by left|]. apply IH.
      rewrite <- Hc. apply acc_ok_singleton.
    + apply IH. by apply acc_ok_snoc.
Qed.

Lemma split_scan_plain_free in_run acc s :
  acc_ok in_run acc →
  Forall whitespace_free (split_scan false in_run acc s).
Proof.
  revert in_run acc. induction s as [|c s IH]; intros in_run acc Hacc; simpl.
  - destruct in_run; simpl in *.
    + constructor; [constructor|done].
    + constructor; [done|done].
  - destruct in_run eqn:Hrun, (is_space c) eqn:Hc; simpl.
    + apply IH. by apply acc_ok_snoc.
    + apply IH. rewrite <- Hc. apply acc_ok_singleton.
    + constructor; [done|]. apply IH. rewrite <- Hc. apply acc_ok_singleton.
    + apply IH. by apply acc_ok_snoc.
Qed.

Lemma is_word_acc in_run acc :
  acc_ok in_run acc →
  is_word acc = negb in_run && bool_decide (0 < length acc).
Proof.
  unfold acc_ok, all_space, whitespace_free.
  destruct in_run, acc as [|a acc]; simpl; try done.
  - intros [Ha _]. apply Forall_cons in Ha as [-> _]. done.
  - intros Ha. apply Forall_cons in Ha as [-> _]. done.
Qed.

(** The pieces of the split without capture group are the pieces of the
    split with capture group that are words. *)
Lemma split_scan_plain_capture in_run acc s :
  acc_ok in_run acc →
  filter_nonempty (split_scan false in_run acc s)
  = filter (λ t, is_word t = true) (split_scan true in_run acc s).
Proof.
  unfold filter_nonempty.
  revert in_run acc. induction s as [|c s IH]; intros in_run acc Hacc; simpl;
    pose proof (is_word_acc _ _ Hacc) as Hw.
  - destruct in_run; simpl in *; rewrite !filter_cons, !filter_nil, ?Hw.
    + done.
    + destruct (decide (0 < length acc));
        [rewrite bool_decide_eq_true_2 by done
        |rewrite bool_decide_eq_false_2 by done]; done.
  - destruct in_run eqn:Hrun, (is_space c) eqn:Hc; simpl in *.
    + apply IH. by apply (acc_ok_snoc true).
    + rewrite filter_cons, Hw. simpl.
      apply IH. rewrite <- Hc. apply acc_ok_singleton.
    + rewrite !filter_cons, Hw.
      rewrite IH by (rewrite <- Hc; apply acc_ok_singleton).
      destruct (decide (0 < length acc));
        [rewrite bool_decide_eq_true_2 by done
        |rewrite bool_decide_eq_false_2 by done]; done.
    + apply IH. by apply (acc_ok_snoc false).
Qed.

Lemma filter_nonempty_cons (acc : jsstring) parts :
  acc ≠ [] → filter_nonempty (acc :: parts) = acc :: filter_nonempty parts.
Proof.
  intros Hne. unfold filter_nonempty. rewrite filter_cons_True; [done|].
  destruct acc; [done|]. simpl; lia.
Qed.

(** With something collected, the first token starts with it, and the
    tokens alternate. *)
Lemma split_scan_capture_alternating in_run acc s :
  acc_ok in_run acc → acc ≠ [] →
  ∃ t ts, filter_nonempty (split_scan true in_run acc s) = t :: ts
          ∧ is_word t = negb in_run
          ∧ alternating (t :: ts).
Proof.
  revert in_run acc. induction s as [|c s IH]; intros in_run acc Hacc Hne.
  - pose proof (is_word_acc _ _ Hacc) as Hw.
    assert (bool_decide (0 < length acc) = true) as Hlen
      by (apply bool_decide_eq_true; destruct acc; [done|simpl; lia]).
    rewrite Hlen, andb_true_r in Hw.
    exists acc, []. destruct in_run; simpl; by rewrite filter_nonempty_cons.
  - pose proof (is_word_acc _ _ Hacc) as Hw.
    assert (bool_decide (0 < length acc) = true) as Hlen
      by (apply bool_decide_eq_true; destruct acc; [done|simpl; lia]).
    rewrite Hlen, andb_true_r in Hw.
    assert (∀ b, acc_ok b acc → is_space c = b →
              acc_ok b (acc ++ [c]) ∧ acc ++ [c] ≠ []) as Hsnoc.
    { intros b ? ?. split; [by apply acc_ok_snoc|by destruct acc]. }
    assert (∃ t ts, filter_nonempty (split_scan true (is_space c) [c] s)
                    = t :: ts
                    ∧ is_word t = negb (is_space c) ∧ alternating (t :: ts))
      as (t & ts & Heq & Ht & Halt)
      by (apply IH; [apply acc_ok_singleton|done]).
    cbn [split_scan].
    destruct in_run eqn:Hrun, (is_space c) eqn:Hc; cbn [push_run app].
    + apply IH; by apply (Hsnoc true).
    + exists acc, (t :: ts). rewrite filter_nonempty_cons, Heq by done.
      do 2 (split; [done|]). split; [by rewrite Hw, Ht | exact Halt].
    + exists acc, (t :: ts). rewrite filter_nonempty_cons, Heq by done.
      do 2 (split; [done|]). split; [by rewrite Hw, Ht | exact Halt].
    + apply IH; by apply (Hsnoc false).
Qed.

Lemma splitText_words_alternating text : alternating (splitText text Words).
Proof.
  unfold splitText, split_regexp_spaces. destruct text as [|c s]; [done|].
  assert (filter_nonempty (split_scan true false [] (c :: s))
          = filter_nonempty (split_scan true (is_space c) [c] s)) as ->
    by (simpl; by destruct (is_space c)).
  destruct (split_scan_capture_alternating (is_space c) [c] s)
    as (t & ts & -> & _ & Halt); [apply acc_ok_singleton|done|done].
Qed.

Lemma split_at_char_nonempty sep piece s : split_at_char sep piece s ≠ [].
Proof.
  revert piece. induction s as [|c s IH]; intros piece; simpl; [done|].
  destruct (c =? sep)%N; [done|]. apply IH.
Qed.

(** C3, as the code has it. At [Words] granularity the tokenizer of
    [SQLDiffHighlighter.tsx] splits with a capturing expression, so the runs
    of white space are tokens too: every token is non-empty and is either
    free of white space or a run of white space, neighbouring tokens are of
    different kinds, and the tokens concatenate to the text.  The tokenizer of the [DiffItem] component discards the
    white space: its tokens are non-empty and free of white space, and they
    are the word tokens of the former. *)
Theorem C3_words_tokens (text : jsstring) :
  Forall (λ t, t ≠ [] ∧ (whitespace_free t ∨ all_space t))
    (splitText text Words)
  ∧ alternating (splitText text Words)
  ∧ concat (splitText text Words) = text
  ∧ Forall (λ t, t ≠ [] ∧ whitespace_free t)
      (DiffItemVariant.splitText text Words)
  ∧ DiffItemVariant.splitText text Words
    = filter (λ t, is_word t = true) (splitText text Words).
Proof.
  assert (acc_ok false []) as Hnil by constructor.
  split; [|split; [apply splitText_words_alternating|]].
  all: unfold splitText, DiffItemVariant.splitText, split_regexp_spaces.
  2: repeat split.
  - apply Forall_forall. intros t [Ht Hin]%elem_of_filter_nonempty.
    split; [done|].
    pose proof (split_scan_capture_kinds false [] text Hnil) as Hk.
    rewrite Forall_forall in Hk. by apply Hk.
  - by rewrite concat_filter_nonempty, split_scan_capture_concat.
  - apply Forall_forall. intros t [Ht Hin]%elem_of_filter_nonempty.
    split; [done|].
    pose proof (split_scan_plain_free false [] text Hnil) as Hk.
    rewrite Forall_forall in Hk. by apply Hk.
  - rewrite split_scan_plain_capture by done.
    unfold filter_nonempty. rewrite list_filter_filter.
    apply list_filter_iff. intros t. split; [|tauto].
    intros Hw. split; [done|]. destruct t; [done|]. simpl; lia.
Qed.

(** C3 fails on [SQLDiffHighlighter.tsx]: the tokens of ["a b"] are
    ["a"], [" "] and ["b"], and the second one is white space. *)
Lemma C3_words_keep_whitespace :
  splitText (str "a b") Words = [str "a"; str " "; str "b"]
  ∧ ¬ Forall (λ t, t ≠ [] ∧ whitespace_free t) (splitText (str "a b") Words).
Proof.
  split; [by vm_compute|].
  intros H. rewrite Forall_forall in H.
  destruct (H (str " ")) as [_ Hfree].
  - vm_compute. apply list_elem_of_In. simpl. tauto.
  - apply Forall_cons in Hfree as [Hsp _]. vm_compute in Hsp. discriminate.
Qed.

(** C4, as the code has it. The empty string has no token at [Words]
    and [Characters] granularity and exactly one token, the empty line, at
    [Lines] granularity, where the token sequence is never empty;
    [splitText] returns a token sequence for every string and granularity. *)
Theorem C4_tokenize_empty :
  splitText [] Words = []
  ∧ splitText [] Characters = []
  ∧ splitText [] Lines = [[]]
  ∧ (∀ text, splitText text Lines ≠ [])
  ∧ ∀ text G, ∃ tokens, splitText text G = tokens.
Proof.
  repeat split; try done.
  - intros text. apply split_at_char_nonempty.
  - intros text G. by eexists.
Qed.

(** C4 fails at [Lines] granularity: the empty string gives one token. *)
Lemma C4_lines_of_empty_string :
  splitText [] Lines = [[]] ∧ splitText [] Lines ≠ [].
Proof. split; [reflexivity | discriminate]. Qed.

(** ** An empty side *)

Lemma computeDiff_nil_l G modified :
  ∃ ds, computeDiff G [] modified = Some ds
        ∧ Forall (λ d, DiffLine.type d = Added) ds.
Proof.
  eexists. split; [apply computeDiff_closed|].
  apply Forall_fmap, Forall_seq. intros k Hk. simpl in Hk.
  unfold emitted. simpl. repeat case_decide; first [done|lia].
Qed.

Lemma computeDiff_nil_r G original :
  ∃ ds, computeDiff G original [] = Some ds
        ∧ Forall (λ d, DiffLine.type d = Removed) ds.
Proof.
  eexists. split; [apply computeDiff_closed|].
  apply Forall_fmap, Forall_seq. intros k Hk. simpl in Hk.
  unfold emitted. simpl. repeat case_decide; first [done|lia].
Qed.

Lemma computeDiff_empty_line_l G modified :
  modified ≠ [] →
  ∃ d ds, computeDiff G [[]] modified = Some (d :: ds)
    ∧ (DiffLine.type d = Unchanged ∨ DiffLine.type d = Modified)
    ∧ Forall (λ d, DiffLine.type d = Added) ds.
Proof.
  intros Hne. rewrite computeDiff_closed.
  destruct modified as [|t ts]; [done|]. simpl length.
  replace (1 `max` S (length ts)) with (S (length ts)) by lia.
  rewrite <- cons_seq, fmap_cons. do 2 eexists. split; [done|]. split.
  - unfold emitted. simpl. repeat case_decide; first [tauto|lia].
  - apply Forall_fmap, Forall_seq. intros k Hk. simpl in Hk.
    unfold emitted. simpl. repeat case_decide; first [done|lia].
Qed.

Lemma computeDiff_empty_line_r G original :
  original ≠ [] →
  ∃ d ds, computeDiff G original [[]] = Some (d :: ds)
    ∧ (DiffLine.type d = Unchanged ∨ DiffLine.type d = Modified)
    ∧ Forall (λ d, DiffLine.type d = Removed) ds.
Proof.
  intros Hne. rewrite computeDiff_closed.
  destruct original as [|t ts]; [done|]. simpl length.
  replace (S (length ts) `max` 1) with (S (length ts)) by lia.
  rewrite <- cons_seq, fmap_cons. do 2 eexists. split; [done|]. split.
  - unfold emitted. simpl. repeat case_decide; first [tauto|lia].
  - apply Forall_fmap, Forall_seq. intros k Hk. simpl in Hk.
    unfold emitted. simpl. repeat case_decide; first [done|lia].
Qed.

(** C5, as the code has it. At [Words] and [Characters] granularity an
    empty A gives only [Added] pairs and an empty B only [Removed] pairs.
    At [Lines] granularity the empty text is one empty line: the first pair
    compares that line with the first line of the other text and is
    [Unchanged] or [Modified], and the pairs after it are all [Added] (empty
    A) or all [Removed] (empty B).  With both texts empty [diffResult]
    returns the empty sequence at every granularity. *)
Theorem C5_empty_side (G : ComparisonType) (A B : jsstring)
    (showUnchanged : bool) :
  match G with
  | Lines =>
      (∃ d ds, computeDiff G (splitText [] G) (splitText B G) = Some (d :: ds)
         ∧ (DiffLine.type d = Unchanged ∨ DiffLine.type d = Modified)
         ∧ Forall (λ d, DiffLine.type d = Added) ds)
      ∧ (∃ d ds, computeDiff G (splitText A G) (splitText [] G) = Some (d :: ds)
         ∧ (DiffLine.type d = Unchanged ∨ DiffLine.type d = Modified)
         ∧ Forall (λ d, DiffLine.type d = Removed) ds)
  | Words | Characters =>
      (∃ ds, computeDiff G (splitText [] G) (splitText B G) = Some ds
         ∧ Forall (λ d, DiffLine.type d = Added) ds)
      ∧ (∃ ds, computeDiff G (splitText A G) (splitText [] G) = Some ds
         ∧ Forall (λ d, DiffLine.type d = Removed) ds)
  end
  ∧ diffResult (Component [] [] G showUnchanged) = Some [].
Proof.
  split; [|done].
  destruct G.
  - split.
    + apply computeDiff_empty_line_l, split_at_char_nonempty.
    + apply computeDiff_empty_line_r, split_at_char_nonempty.
  - split; [apply computeDiff_nil_l | apply computeDiff_nil_r].
  - split; [apply computeDiff_nil_l | apply computeDiff_nil_r].
Qed.

(** C5 fails at [Lines] granularity: with A empty and B = ["x"] the
    only pair is [Modified]. *)
Lemma C5_lines_empty_original :
  computeDiff Lines (splitText [] Lines) (splitText (str "x") Lines)
  = Some [DiffLine.mk Modified [] (str "x") 1 1]
  ∧ ¬ Forall (λ d, DiffLine.type d = Added)
        [DiffLine.mk Modified [] (str "x") 1 1].
Proof.
  split; [by vm_compute|].
  intros H. apply Forall_cons in H as [H _]. discriminate.
Qed.

(** ** The copy handler *)

(** C9. When the clipboard write fails, [handleCopy] completes normally:
    the failure is caught, logged on the console and reported by an alert,
    and the component's state, hence its blocks and statistics, is what it
    was before the call. *)
Theorem C9_copy_failure_is_local
    (writeText : jsstring → browser → completion unit * browser)
    (text : jsstring) (w : world) (err : string) (e : browser) :
  writeText text (env w) = (Throw err, e) →
  ∃ w', handleCopy writeText text w = (Normal (), w')
    ∧ alerts (env w') = alerts e ++ ["Failed to copy to clipboard"%string]
    ∧ console_errors (env w')
      = console_errors e ++ [("Failed to copy:"%string, err)]
    ∧ ui w' = ui w
    ∧ diffResult (ui w') = diffResult (ui w)
    ∧ stats (ui w') = stats (ui w).
Proof.
  intros Hfail. eexists. split.
  - unfold handleCopy, try_catch, seq_action, clipboard_writeText.
    rewrite Hfail. simpl. reflexivity.
  - done.
Qed.

(** C9 at a clipboard that denies every write. *)
Lemma C9_copy_failure_is_local_witness :
  let denied := λ (_ : jsstring) (e : browser),
                  (@Throw unit "NotAllowedError"%string, e) in
  let w := World (Component (str "SELECT 1") (str "SELECT 2") Lines false)
             (Browser [] [] []) in
  ∃ w', handleCopy denied (str "SELECT 2") w = (Normal (), w')
    ∧ alerts (env w') = ["Failed to copy to clipboard"%string]
    ∧ ui w' = ui w.
Proof.
  intros denied w.
  destruct (C9_copy_failure_is_local denied (str "SELECT 2") w
              "NotAllowedError"%string (env w) eq_refl)
    as (w' & Hrun & Halert & _ & Hui & _).
  exists w'. split; [exact Hrun|]. split; [exact Halert | exact Hui].
Defined.

(** ** Lines and characters *)

Lemma join_cons sep part rest :
  rest ≠ [] → join sep (part :: rest) = part ++ sep ++ join sep rest.
Proof. by destruct rest. Qed.

Lemma join_split_at_char sep piece s :
  join [sep] (split_at_char sep piece s) = piece ++ s.
Proof.
  revert piece. induction s as [|c s IH]; intros piece; simpl.
  - by rewrite app_nil_r.
  - destruct (N.eqb_spec c sep) as [->|Hne].
    + rewrite join_cons by apply split_at_char_nonempty. by rewrite IH.
    + rewrite IH. by rewrite <- app_assoc.
Qed.

Lemma split_at_char_free sep piece s :
  sep ∉ piece → Forall (λ t, sep ∉ t) (split_at_char sep piece s).
Proof.
  revert piece. induction s as [|c s IH]; intros piece Hpiece; simpl.
  - by constructor.
  - destruct (N.eqb_spec c sep) as [->|Hne].
    + constructor; [done|]. apply IH. apply not_elem_of_nil.
    + apply IH. rewrite elem_of_app, list_elem_of_singleton.
      intros [?|?]; [done|]. by apply Hne.
Qed.

Lemma length_split_at_char sep piece s :
  length (split_at_char sep piece s) = S (length (filter (λ c, c = sep) s)).
Proof.
  revert piece. induction s as [|c s IH]; intros piece; simpl; [done|].
  rewrite filter_cons. destruct (N.eqb_spec c sep) as [->|Hne].
  - rewrite decide_True by done. simpl. by rewrite IH.
  - rewrite decide_False by done. apply IH.
Qed.

(** X1. At [Lines] granularity the tokens joined by line feeds are the
    text again, no token holds a line feed, and there is one token more
    than there are line feeds in the text. *)
Theorem X1_lines_roundtrip (text : jsstring) :
  join [LF] (splitText text Lines) = text
  ∧ Forall (λ t, LF ∉ t) (splitText text Lines)
  ∧ length (splitText text Lines) = S (length (filter (λ c, c = LF) text)).
Proof.
  unfold splitText, split_string. split; [|split].
  - apply join_split_at_char.
  - apply split_at_char_free, not_elem_of_nil.
  - apply length_split_at_char.
Qed.

(** X2. At [Characters] granularity there is one token per code unit of
    the text, each of length one, and the tokens concatenate to the text. *)
Theorem X2_characters_roundtrip (text : jsstring) :
  concat (splitText text Characters) = text
  ∧ length (splitText text Characters) = length text
  ∧ Forall (λ t, length t = 1) (splitText text Characters).
Proof.
  unfold splitText, split_empty. split; [|split].
  - induction text as [|c text IH]; [done|]. simpl. f_equal. exact IH.
  - by rewrite length_fmap.
  - apply Forall_fmap. by apply Forall_forall.
Qed.

(** ** The blocks of the grouper *)

Lemma lookup_last_snoc {A} (l : list A) x : (l ++ [x]) !! length l = Some x.
Proof. by apply list_lookup_middle. Qed.

Lemma alter_last_snoc {A} (f : A → A) (l : list A) x :
  alter f (length l) (l ++ [x]) = l ++ [f x].
Proof.
  rewrite alter_app_r_alt by lia. by replace (length l - length l) with 0 by lia.
Qed.

Lemma current_is_last_cases gs :
  current_is_last gs →
  gs = {| blocks := []; currentBlock := None |}
  ∨ ∃ bs0 b0, gs = {| blocks := bs0 ++ [b0];
                      currentBlock := Some (length bs0) |}.
Proof.
  destruct gs as [bs [i|]]; unfold current_is_last; simpl.
  - intros Hlen. right.
    destruct bs as [|b0 bs0 _] using rev_ind; [done|].
    rewrite length_app in Hlen; simpl in Hlen.
    exists bs0, b0. do 2 f_equal. lia.
  - intros ->. by left.
Qed.

Lemma group_step_empty line :
  group_step {| blocks := []; currentBlock := None |} line
  = {| blocks := [new_block line]; currentBlock := Some 0 |}.
Proof.
  unfold group_step, new_block, coarse, start_block; simpl.
  destruct (decide (DiffLine.type line ≠ Unchanged)) as [Hc|Hc];
    [rewrite (bool_decide_eq_true_2 _ Hc)|rewrite (bool_decide_eq_false_2 _ Hc)];
    done.
Qed.

Lemma group_step_last bs0 b0 line :
  group_step {| blocks := bs0 ++ [b0]; currentBlock := Some (length bs0) |} line
  = if decide (coarse line = DiffBlock.type b0)
    then {| blocks := bs0 ++ [extend_block line b0];
            currentBlock := Some (length bs0) |}
    else {| blocks := (bs0 ++ [b0]) ++ [new_block line];
            currentBlock := Some (length (bs0 ++ [b0])) |}.
Proof.
  unfold group_step, currentBlock_type, coarse, new_block, coarse; simpl.
  rewrite lookup_last_snoc; simpl.
  destruct (decide (DiffLine.type line ≠ Unchanged)) as [Hc|Hc];
    [rewrite (bool_decide_eq_true_2 _ Hc)|rewrite (bool_decide_eq_false_2 _ Hc)];
    destruct (DiffBlock.type b0) eqn:Hb; simpl;
    repeat case_decide; try congruence;
    unfold continue_block, start_block, extend_block; simpl;
    rewrite ?alter_last_snoc, ?Hb; done.
Qed.

Lemma block_ok_new line : block_ok (new_block line).
Proof. unfold block_ok, new_block; simpl. by repeat constructor. Qed.

Lemma block_ok_extend line b :
  block_ok b → coarse line = DiffBlock.type b → block_ok (extend_block line b).
Proof.
  intros (Hall & Hhead & Hlast) Hline. unfold block_ok, extend_block; simpl.
  split; [|split].
  - apply Forall_app. split; [done|]. by constructor.
  - destruct (DiffBlock.lines b); [done|]. done.
  - by rewrite last_snoc.
Qed.

Lemma blocks_alternate_snoc bs b :
  blocks_alternate bs →
  (∀ b0, last bs = Some b0 → DiffBlock.type b0 ≠ DiffBlock.type b) →
  blocks_alternate (bs ++ [b]).
Proof.
  intros Halt Hlast i b1 b2 H1 H2.
  destruct (decide (S i < length bs)) as [Hlt|Hge].
  - rewrite lookup_app_l in H1, H2 by lia. by eapply Halt.
  - assert (S i = length bs) as Hi.
    { apply lookup_lt_Some in H2. rewrite length_app in H2; simpl in H2. lia. }
    rewrite lookup_app_l in H1 by lia.
    rewrite Hi, lookup_last_snoc in H2. injection H2 as <-.
    apply Hlast. rewrite last_lookup, <- Hi. done.
Qed.

Lemma blocks_alternate_replace_last bs b b' :
  blocks_alternate (bs ++ [b]) → DiffBlock.type b' = DiffBlock.type b →
  blocks_alternate (bs ++ [b']).
Proof.
  intros Halt Hty i b1 b2 H1 H2.
  assert (S i < length (bs ++ [b'])) as Hlt by by eapply lookup_lt_Some.
  rewrite length_app in Hlt; simpl in Hlt.
  rewrite lookup_app_l in H1 by lia.
  destruct (decide (S i < length bs)) as [Hin|Hout].
  - rewrite lookup_app_l in H2 by lia.
    apply (Halt i); by rewrite lookup_app_l by lia.
  - assert (S i = length bs) as Hi by lia.
    rewrite Hi, lookup_last_snoc in H2. injection H2 as <-. rewrite Hty.
    apply (Halt i); [by rewrite lookup_app_l by lia|].
    by rewrite Hi, lookup_last_snoc.
Qed.

Lemma group_step_inv gs line : grouper_inv gs → grouper_inv (group_step gs line).
Proof.
  intros (Hcur & Hok & Halt).
  destruct (current_is_last_cases gs Hcur) as [->|(bs0 & b0 & ->)].
  - rewrite group_step_empty. split; [done|]. split.
    + repeat constructor; apply block_ok_new.
    + intros i b1 b2 _ H2. by destruct i.
  - rewrite group_step_last. simpl in Hok, Halt.
    apply Forall_app in Hok as [Hok0 Hokb]. rewrite Forall_singleton in Hokb.
    case_decide as Hty.
    + split; [|split]; simpl.
      * unfold current_is_last; simpl. rewrite length_app; simpl. lia.
      * apply Forall_app. split; [done|].
        apply Forall_singleton. apply block_ok_extend; [exact Hokb|exact Hty].
      * by apply (blocks_alternate_replace_last bs0 b0).
    + split; [|split]; simpl.
      * unfold current_is_last; simpl. rewrite !length_app; simpl. lia.
      * apply Forall_app. split; [|apply Forall_singleton, block_ok_new].
        apply Forall_app. split; [done|by apply Forall_singleton].
      * apply blocks_alternate_snoc; [done|].
        intros b. rewrite last_snoc. intros [= <-]. simpl. congruence.
Qed.

Lemma foldl_group_step_inv ds gs :
  grouper_inv gs → grouper_inv (foldl group_step gs ds).
Proof.
  revert gs. induction ds as [|d ds IH]; intros gs Hinv; simpl; [done|].
  by apply IH, group_step_inv.
Qed.

Lemma groupDiffBlocks_inv ds :
  Forall block_ok (groupDiffBlocks ds) ∧ blocks_alternate (groupDiffBlocks ds).
Proof.
  unfold groupDiffBlocks.
  apply (foldl_group_step_inv ds {| blocks := []; currentBlock := None |}).
  split; [done|]. split; [constructor|]. by intros i b1 b2 H1.
Qed.

(** X3. Whatever the pairs, the lines of the blocks returned by
    [groupDiffBlocks], concatenated in block order, are the input; every
    block holds at least one line, all its lines are of the block's category
    (changed or unchanged), and two neighbouring blocks are of different
    categories: the blocks are the maximal runs of the input. *)
Theorem X3_blocks_are_maximal_runs (diffLines : list DiffLine.t) :
  concat (DiffBlock.lines <$> groupDiffBlocks diffLines) = diffLines
  ∧ Forall (λ b, DiffBlock.lines b ≠ []
                 ∧ Forall (λ line, coarse line = DiffBlock.type b)
                     (DiffBlock.lines b))
      (groupDiffBlocks diffLines)
  ∧ blocks_alternate (groupDiffBlocks diffLines).
Proof.
  split.
  { unfold groupDiffBlocks.
    exact (foldl_group_step diffLines
             {| blocks := []; currentBlock := None |} eq_refl). }
  destruct (groupDiffBlocks_inv diffLines) as [Hok Halt]. split; [|done].
  eapply Forall_impl; [exact Hok|]. intros b (Hall & Hhead & _).
  split; [|done]. intros Hnil. by rewrite Hnil in Hhead.
Qed.

(** X4. The bounds of every block returned by [groupDiffBlocks] are the
    original line numbers of its first and of its last line. *)
Theorem X4_block_bounds (diffLines : list DiffLine.t) :
  Forall (λ b, DiffLine.originalLineNumber <$> head (DiffBlock.lines b)
               = Some (DiffBlock.startLine b)
               ∧ DiffLine.originalLineNumber <$> last (DiffBlock.lines b)
                 = Some (DiffBlock.endLine b))
    (groupDiffBlocks diffLines).
Proof.
  destruct (groupDiffBlocks_inv diffLines) as [Hok _].
  eapply Forall_impl; [exact Hok|]. by intros b (_ & Hhead & Hlast).
Qed.

(** ** Statistics *)

Lemma count_type_flat t bs :
  count_type t bs
  = length (filter (λ line, DiffLine.type line = t) (flat_lines bs)).
Proof.
  unfold count_type.
  assert (∀ a, foldl (λ acc block,
                        acc + length (filter (λ line, DiffLine.type line = t)
                                        (DiffBlock.lines block))) a bs
               = a + length (filter (λ line, DiffLine.type line = t)
                               (flat_lines bs))) as H.
  { induction bs as [|b bs IH]; intros a; simpl; [lia|].
    rewrite IH. change (flat_lines (b :: bs))
      with (DiffBlock.lines b ++ flat_lines bs).
    rewrite filter_app, length_app. lia. }
  by rewrite H.
Qed.

Lemma flat_lines_groupDiffBlocks ds : flat_lines (groupDiffBlocks ds) = ds.
Proof.
  unfold groupDiffBlocks.
  exact (foldl_group_step ds {| blocks := []; currentBlock := None |} eq_refl).
Qed.

(** X5. Grouping does not change the counts: the number of lines of a
    type summed over the blocks is the number of pairs of that type. *)
Theorem X5_count_type_of_groups (t : LineType) (diffLines : list DiffLine.t) :
  count_type t (groupDiffBlocks diffLines)
  = length (filter (λ line, DiffLine.type line = t) diffLines).
Proof. by rewrite count_type_flat, flat_lines_groupDiffBlocks. Qed.

Lemma length_filter_fmap {A B} (f : A → B) (P : B → Prop)
    `{!∀ x, Decision (P x)} (l : list A) :
  length (filter P (f <$> l)) = length (filter (λ x, P (f x)) l).
Proof.
  induction l as [|x l IH]; [done|]. rewrite fmap_cons, !filter_cons.
  case_decide; simpl; by rewrite IH.
Qed.

Lemma fmap_seq_const {A} (f : nat → A) (c : A) (a n : nat) :
  (∀ k, a ≤ k → k < a + n → f k = c) → f <$> seq a n = replicate n c.
Proof.
  revert a. induction n as [|n IH]; intros a Hf; [done|]. simpl.
  rewrite Hf by lia. f_equal. apply IH. intros k Hk Hlt. apply Hf; lia.
Qed.

Lemma emitted_type_shift G x o y m k :
  DiffLine.type (emitted G (x :: o) (y :: m) (S k))
  = DiffLine.type (emitted G o m k).
Proof.
  unfold emitted. simpl. repeat case_decide; simpl; try done; lia.
Qed.

Lemma emitted_types G o m :
  DiffLine.type <$> (emitted G o m <$> seq 0 (length o `max` length m))
  = pair_types o m.
Proof.
  rewrite <- list_fmap_compose.
  revert m. induction o as [|x o IH]; intros m.
  - simpl. apply fmap_seq_const. intros k _ _. unfold emitted; simpl.
    by repeat case_decide; try lia.
  - destruct m as [|y m].
    + change (pair_types (x :: o) [])
        with (replicate (length (x :: o)) Removed).
      replace (length (x :: o) `max` length []) with
        (length (x :: o)) by (simpl; lia).
      apply fmap_seq_const. intros k _ Hk. unfold compose, emitted.
      simpl. repeat case_decide; simpl in *; try done; lia.
    + simpl. f_equal.
      * unfold emitted; simpl. by repeat case_decide.
      * rewrite <- IH, <- fmap_S_seq, <- list_fmap_compose.
        apply list_fmap_ext. intros i k _. apply emitted_type_shift.
Qed.

Lemma pair_types_counts o m :
  length (filter (λ t, t = Added) (pair_types o m)) = length m - length o
  ∧ length (filter (λ t, t = Removed) (pair_types o m)) = length o - length m
  ∧ length (filter (λ t, t = Modified) (pair_types o m))
    = length (filter (λ p, p.1 ≠ p.2) (zip o m)).
Proof.
  assert (∀ n (t c : LineType), t ≠ c →
            length (filter (λ t', t' = t) (replicate n c)) = 0) as Hother.
  { intros n t c Hne. induction n as [|n IH]; [done|]. simpl.
    by rewrite filter_cons_False by congruence. }
  assert (∀ n (t : LineType),
            length (filter (λ t', t' = t) (replicate n t)) = n) as Hsame.
  { intros n t. induction n as [|n IH]; [done|]. simpl.
    rewrite filter_cons_True by done. simpl. by rewrite IH. }
  revert m. induction o as [|x o IH]; intros m.
  - change (pair_types [] m) with (replicate (length m) Added).
    rewrite Hsame, !Hother by done. simpl. repeat split; lia.
  - destruct m as [|y m].
    + change (pair_types (x :: o) [])
        with (replicate (length (x :: o)) Removed).
      rewrite Hsame, !Hother by done. simpl. repeat split; lia.
    + destruct (IH m) as (Ha & Hr & Hm). simpl.
      rewrite !filter_cons. simpl.
      repeat case_decide; simpl; try congruence; rewrite ?Ha, ?Hr, ?Hm;
        repeat split; lia.
Qed.

Lemma zip_same_no_difference (l : list jsstring) :
  filter (λ p, p.1 ≠ p.2) (zip l l) = [].
Proof.
  induction l as [|x l IH]; [done|]. simpl.
  by rewrite filter_cons_False by (simpl; tauto).
Qed.

Lemma count_type_emitted t G o m :
  count_type t
    (groupDiffBlocks (emitted G o m <$> seq 0 (length o `max` length m)))
  = length (filter (λ t', t' = t) (pair_types o m)).
Proof.
  rewrite count_type_flat, flat_lines_groupDiffBlocks.
  by rewrite <- (emitted_types G), !length_filter_fmap.
Qed.

(** X6. The statistics of the component, whatever its texts: with [o] and
    [m] the tokens of the original and of the modified text, the additions
    are the tokens [m] has more than [o], the deletions the tokens [o] has
    more than [m], and the modifications the positions at which both have a
    token and the two tokens differ.  So additions and deletions are never
    reported together. *)
Theorem X6_stats_closed_form (c : component) :
  let o := splitText (originalSQL c) (comparisonType c) in
  let m := splitText (modifiedSQL c) (comparisonType c) in
  ∃ st, stats c = Some st
    ∧ stat_added st = length m - length o
    ∧ stat_removed st = length o - length m
    ∧ stat_modified st = length (filter (λ p, p.1 ≠ p.2) (zip o m))
    ∧ (stat_added st = 0 ∨ stat_removed st = 0).
Proof.
  intros o m. unfold stats, diffResult. case_bool_decide as Hguard.
  - destruct Hguard as [Ho Hm]. subst o m. rewrite Ho, Hm.
    eexists. split; [done|]. simpl.
    rewrite zip_same_no_difference. change (count_type _ []) with 0.
    repeat split; first [lia | by left].
  - fold o m. rewrite computeDiff_closed. simpl.
    destruct (pair_types_counts o m) as (Ha & Hr & Hm).
    eexists. split; [done|]. simpl. rewrite !count_type_emitted.
    rewrite Ha, Hr, Hm. repeat split; lia.
Qed.

(** X7. [diffResult] always returns: with both texts empty the empty
    sequence of blocks, and otherwise blocks whose lines, concatenated, are
    the pairs of [computeDiff] on the tokens of the two texts, as many as
    the longer token sequence has tokens. *)
Theorem X7_diffResult_total (c : component) :
  let o := splitText (originalSQL c) (comparisonType c) in
  let m := splitText (modifiedSQL c) (comparisonType c) in
  ∃ bs, diffResult c = Some bs
    ∧ if decide (originalSQL c = [] ∧ modifiedSQL c = []) then bs = []
      else computeDiff (comparisonType c) o m
           = Some (concat (DiffBlock.lines <$> bs))
           ∧ length (concat (DiffBlock.lines <$> bs))
             = length o `max` length m.
Proof.
  intros o m. unfold diffResult. case_bool_decide as Hguard.
  - eexists. split; [done|]. by rewrite decide_True.
  - fold o m. rewrite computeDiff_closed. simpl.
    eexists. split; [done|]. rewrite decide_False by done.
    change (concat (DiffBlock.lines <$> ?bs)) with (flat_lines bs).
    rewrite flat_lines_groupDiffBlocks. split; [done|].
    by rewrite length_fmap, length_seq.
Qed.

(** ** More on the aligner *)

Lemma emitted_swap G o m k :
  k < length o `max` length m →
  emitted G m o k = swap_sides (emitted G o m k).
Proof.
  intros Hk. unfold emitted, swap_sides.
  repeat case_decide; simpl; try lia; try congruence.
Qed.

(** X8. Exchanging the two token sequences exchanges the sides of every
    pair: the contents and the position counters change places, [Added]
    becomes [Removed] and [Removed] becomes [Added]. *)
Theorem X8_align_swap (G : ComparisonType) (original modified : list jsstring) :
  ∃ ds, computeDiff G original modified = Some ds
        ∧ computeDiff G modified original = Some (swap_sides <$> ds).
Proof.
  eexists. split; [apply computeDiff_closed|].
  rewrite computeDiff_closed, Nat.max_comm. f_equal.
  rewrite <- list_fmap_compose. apply list_fmap_ext.
  intros i k [-> Hk]%lookup_seq. simpl. by apply emitted_swap.
Qed.

(** X9. The types of the pairs, in order, are those of [pair_types]: while
    both sequences have a token the pair is [Unchanged] or [Modified], and
    the pairs after that are all [Added] or all [Removed].  The two contents
    of an [Unchanged] pair are equal and those of a [Modified] pair differ. *)
Theorem X9_align_types (G : ComparisonType) (original modified : list jsstring) :
  ∃ ds, computeDiff G original modified = Some ds
    ∧ DiffLine.type <$> ds = pair_types original modified
    ∧ Forall (λ d, (DiffLine.type d = Unchanged
                    → DiffLine.originalContent d = DiffLine.modifiedContent d)
                   ∧ (DiffLine.type d = Modified
                      → DiffLine.originalContent d ≠ DiffLine.modifiedContent d))
        ds.
Proof.
  eexists. split; [apply computeDiff_closed|]. split; [apply emitted_types|].
  apply Forall_fmap, Forall_seq. intros k _. simpl.
  unfold emitted. by repeat case_decide.
Qed.

(** X11. At [Lines] granularity the numbers shown beside a pair are the
    numbers of the lines shown: a pair that shows original line number [j]
    holds line [j] of the original text, and a pair that shows modified
    line number [j] holds line [j] of the modified text (lines counted from
    1). *)
Theorem X11_line_numbers_point_to_lines (original modified : list jsstring) :
  ∃ ds, computeDiff Lines original modified = Some ds
    ∧ Forall (λ d,
        (∀ j, shownOriginalLineNumber d = Some j →
              1 ≤ j ∧ original !! (j - 1) = Some (DiffLine.originalContent d))
        ∧ (∀ j, shownModifiedLineNumber d = Some j →
               1 ≤ j ∧ modified !! (j - 1) = Some (DiffLine.modifiedContent d)))
        ds.
Proof.
  eexists. split; [apply computeDiff_closed|].
  apply Forall_fmap, Forall_seq. intros k [_ Hk]. simpl in Hk. simpl.
  unfold shownOriginalLineNumber, shownModifiedLineNumber, emitted, counter.
  split; intros j; repeat case_decide; simpl in *; try done;
    intros [= <-]; (split; [lia|]);
    replace (S k - 1) with k by lia; apply lookup_default; lia.
Qed.

(** ** Blocks of the component *)

Lemma foldl_group_step_same bs0 b0 ds :
  Forall (λ line, coarse line = DiffBlock.type b0) ds →
  ∃ b, foldl group_step
         {| blocks := bs0 ++ [b0]; currentBlock := Some (length bs0) |} ds
       = {| blocks := bs0 ++ [b]; currentBlock := Some (length bs0) |}
       ∧ DiffBlock.type b = DiffBlock.type b0.
Proof.
  revert b0. induction ds as [|d ds IH]; intros b0 Hall; simpl.
  - by exists b0.
  - apply Forall_cons in Hall as [Hd Hall].
    rewrite group_step_last, decide_True by done.
    destruct (IH (extend_block d b0)) as (b & -> & Hb); [done|]. by exists b.
Qed.

Lemma groupDiffBlocks_one_category d ds :
  Forall (λ line, coarse line = coarse d) ds →
  ∃ b, groupDiffBlocks (d :: ds) = [b] ∧ DiffBlock.type b = coarse d.
Proof.
  intros Hall. unfold groupDiffBlocks. simpl. rewrite group_step_empty.
  destruct (foldl_group_step_same [] (new_block d) ds Hall) as (b & Hb & Hty).
  simpl in Hb. rewrite Hb. by exists b.
Qed.

Lemma splitText_nonempty text G : text ≠ [] → splitText text G ≠ [].
Proof.
  intros Hne Hnil. destruct G; simpl in Hnil.
  - by apply split_at_char_nonempty in Hnil.
  - apply Hne. unfold split_regexp_spaces in Hnil.
    pose proof (split_scan_capture_concat false [] text) as Hcat.
    rewrite <- concat_filter_nonempty, Hnil in Hcat. by simpl in Hcat.
  - unfold split_empty in Hnil. apply fmap_nil_inv in Hnil. done.
Qed.

Lemma stats_of_component (c : component) :
  let o := splitText (originalSQL c) (comparisonType c) in
  let m := splitText (modifiedSQL c) (comparisonType c) in
  stats c
  = Some (mkStats (length m - length o) (length o - length m)
            (length (filter (λ p, p.1 ≠ p.2) (zip o m)))).
Proof.
  intros o m. unfold stats, diffResult. case_bool_decide as Hguard.
  - destruct Hguard as [Ho Hm]. subst o m. rewrite Ho, Hm. simpl.
    rewrite zip_same_no_difference. change (count_type _ []) with 0.
    do 2 f_equal; simpl; lia.
  - fold o m. rewrite computeDiff_closed. simpl.
    destruct (pair_types_counts o m) as (Ha & Hr & Hm).
    rewrite !count_type_emitted. by rewrite Ha, Hr, Hm.
Qed.

(** X10. A text compared with itself: no block when the text is empty,
    and otherwise exactly one block, unchanged; the statistics are all
    zero. *)
Theorem X10_same_text_one_block (A : jsstring) (G : ComparisonType)
    (showUnchanged : bool) :
  let c := Component A A G showUnchanged in
  ∃ bs, diffResult c = Some bs
    ∧ length bs = (if decide (A = []) then 0 else 1)
    ∧ Forall (λ b, DiffBlock.type b = BlockUnchanged) bs
    ∧ stats c = Some (mkStats 0 0 0).
Proof.
  intros c. assert (stats c = Some (mkStats 0 0 0)) as Hstats.
  { rewrite stats_of_component. simpl.
    rewrite zip_same_no_difference. do 2 f_equal; simpl; lia. }
  unfold diffResult. simpl. case_bool_decide as Hguard.
  - destruct Hguard as [-> _]. exists []. by rewrite decide_True.
  - assert (A ≠ []) as HA by tauto. rewrite decide_False by done.
    rewrite computeDiff_closed. simpl.
    pose proof (splitText_nonempty A G HA) as Htok.
    destruct (splitText A G) as [|t ts] eqn:Heq; [done|].
    replace (length (t :: ts) `max` length (t :: ts))
      with (S (length ts)) by (simpl; lia).
    rewrite <- cons_seq, fmap_cons.
    assert (∀ k, coarse (emitted G (t :: ts) (t :: ts) k) = BlockUnchanged
                 ∨ S (length ts) ≤ k) as Hall.
    { intros k. unfold coarse, emitted. simpl.
      repeat case_decide; simpl in *; try tauto; try lia. }
    destruct (groupDiffBlocks_one_category
                (emitted G (t :: ts) (t :: ts) 0)
                (emitted G (t :: ts) (t :: ts) <$> seq 1 (length ts)))
      as (b & -> & Hb).
    + apply Forall_fmap, Forall_seq. intros k Hk. simpl.
      destruct (Hall 0) as [->|?]; [|lia]. destruct (Hall k); [done|lia].
    + exists [b]. split; [done|]. split; [done|]. split; [|done].
      apply Forall_singleton. rewrite Hb. destruct (Hall 0); [done|lia].
Qed.

Lemma block_lines_in_flat bs b :
  b ∈ bs →
  ∃ p, ∀ i line, DiffBlock.lines b !! i = Some line →
                 flat_lines bs !! (p + i) = Some line.
Proof.
  intros (l1 & l2 & ->)%list_elem_of_split.
  exists (length (flat_lines l1)). intros i line Hi.
  rewrite flat_lines_app. rewrite lookup_app_r by lia.
  replace (length (flat_lines l1) + i - length (flat_lines l1)) with i by lia.
  change (flat_lines (b :: l2)) with (DiffBlock.lines b ++ flat_lines l2).
  by apply lookup_app_l_Some.
Qed.

(** The lines of a block of the grouper are pairs of the aligner at
    consecutive positions. *)
Lemma block_lines_emitted G o m b :
  b ∈ groupDiffBlocks (emitted G o m <$> seq 0 (length o `max` length m)) →
  ∃ p, ∀ i line, DiffBlock.lines b !! i = Some line →
                 line = emitted G o m (p + i)
                 ∧ p + i < length o `max` length m.
Proof.
  intros Hb. destruct (block_lines_in_flat _ _ Hb) as [p Hp].
  exists p. intros i line Hi. apply Hp in Hi.
  rewrite flat_lines_groupDiffBlocks in Hi.
  apply lookup_emitted in Hi. tauto.
Qed.

Lemma block_bounds_lookup b :
  block_ok b →
  ∃ first last_,
    DiffBlock.lines b !! 0 = Some first
    ∧ DiffBlock.lines b !! pred (length (DiffBlock.lines b)) = Some last_
    ∧ DiffLine.originalLineNumber first = DiffBlock.startLine b
    ∧ DiffLine.originalLineNumber last_ = DiffBlock.endLine b
    ∧ 0 < length (DiffBlock.lines b).
Proof.
  intros (_ & Hhead & Hlast).
  apply fmap_Some in Hhead as (first & Hfirst & ->).
  apply fmap_Some in Hlast as (last_ & Hlst & ->).
  rewrite head_lookup in Hfirst. rewrite last_lookup in Hlst.
  exists first, last_. repeat split; try done.
  by apply lookup_lt_Some in Hfirst.
Qed.

Lemma emitted_unchanged_lines o m k :
  DiffLine.type (emitted Lines o m k) = Unchanged →
  DiffLine.originalLineNumber (emitted Lines o m k) = S k
  ∧ DiffLine.modifiedLineNumber (emitted Lines o m k) = S k.
Proof. unfold emitted, counter. by repeat case_decide. Qed.

Lemma coarse_unchanged line :
  coarse line = BlockUnchanged → DiffLine.type line = Unchanged.
Proof.
  unfold coarse. case_decide as H; [done|]. intros _.
  by destruct (DiffLine.type line).
Qed.

(** X12. At [Lines] granularity the lines of an unchanged block are
    numbered consecutively from [startLine], on both sides, so the block
    covers the lines [startLine] to [endLine] of both texts and holds
    [endLine - startLine + 1] lines. *)
Theorem X12_unchanged_block_numbering (original modified : list jsstring) :
  ∃ ds, computeDiff Lines original modified = Some ds
    ∧ Forall (λ b,
        DiffBlock.type b = BlockUnchanged →
        DiffBlock.endLine b + 1
        = DiffBlock.startLine b + length (DiffBlock.lines b)
        ∧ ∀ i line, DiffBlock.lines b !! i = Some line →
            DiffLine.originalLineNumber line = DiffBlock.startLine b + i
            ∧ DiffLine.modifiedLineNumber line = DiffBlock.startLine b + i)
        (groupDiffBlocks ds).
Proof.
  eexists. split; [apply computeDiff_closed|].
  apply Forall_forall. intros b Hb Hty.
  destruct (groupDiffBlocks_inv
              (emitted Lines original modified
                 <$> seq 0 (length original `max` length modified)))
    as [Hok _].
  rewrite Forall_forall in Hok. specialize (Hok b Hb).
  destruct (block_lines_emitted _ _ _ _ Hb) as [p Hp].
  assert (∀ i line, DiffBlock.lines b !! i = Some line →
            DiffLine.originalLineNumber line = S (p + i)
            ∧ DiffLine.modifiedLineNumber line = S (p + i)) as Hnum.
  { intros i line Hi. destruct (Hp i line Hi) as [-> _].
    apply emitted_unchanged_lines, coarse_unchanged.
    destruct Hok as (Hall & _). rewrite Forall_forall in Hall.
    rewrite <- Hty. apply Hall. by eapply list_elem_of_lookup_2. }
  destruct (block_bounds_lookup b Hok)
    as (first & last_ & Hfirst & Hlast & Hs & He & Hlen).
  apply Hnum in Hfirst as [Hf _]. apply Hnum in Hlast as [Hl _].
  rewrite Hs in Hf. rewrite He in Hl. split; [lia|].
  intros i line Hi. apply Hnum in Hi. lia.
Qed.

(** X13. At [Words] and [Characters] granularity every block has
    [startLine] and [endLine] equal to 1, whatever the tokens. *)
Theorem X13_block_bounds_without_lines (original modified : list jsstring) :
  (∃ ds, computeDiff Words original modified = Some ds
     ∧ Forall (λ b, DiffBlock.startLine b = 1 ∧ DiffBlock.endLine b = 1)
         (groupDiffBlocks ds))
  ∧ (∃ ds, computeDiff Characters original modified = Some ds
       ∧ Forall (λ b, DiffBlock.startLine b = 1 ∧ DiffBlock.endLine b = 1)
           (groupDiffBlocks ds)).
Proof.
  assert (∀ G, G ≠ Lines →
            ∃ ds, computeDiff G original modified = Some ds
              ∧ Forall (λ b, DiffBlock.startLine b = 1 ∧ DiffBlock.endLine b = 1)
                  (groupDiffBlocks ds)) as H.
  { intros G HG. eexists. split; [apply computeDiff_closed|].
    apply Forall_forall. intros b Hb.
    destruct (groupDiffBlocks_inv
                (emitted G original modified
                   <$> seq 0 (length original `max` length modified)))
      as [Hok _].
    rewrite Forall_forall in Hok. specialize (Hok b Hb).
    destruct (block_lines_emitted _ _ _ _ Hb) as [p Hp].
    assert (∀ i line, DiffBlock.lines b !! i = Some line →
              DiffLine.originalLineNumber line = 1) as Hnum.
    { intros i line Hi. destruct (Hp i line Hi) as [-> _].
      unfold emitted, counter. by repeat case_decide. }
    destruct (block_bounds_lookup b Hok)
      as (first & last_ & Hfirst & Hlast & Hs & He & _).
    apply Hnum in Hfirst. apply Hnum in Hlast. split; congruence. }
  split; by apply H.
Qed.

(** ** The copy handlers *)

(** X14. [handleCopy] completes normally whatever the clipboard does,
    leaves the state of the component as it was and shows exactly one
    alert: the success message when the write completed, and otherwise the
    failure message, after logging the error on the console. *)
Theorem X14_handleCopy_always_completes
    (writeText : jsstring → browser → completion unit * browser)
    (text : jsstring) (w : world) :
  ∃ w', handleCopy writeText text w = (Normal (), w')
    ∧ ui w' = ui w
    ∧ match writeText text (env w) with
      | (Normal _, e) =>
          env w' = {| clipboard := clipboard e;
                      alerts := alerts e ++ ["Copied to clipboard!"%string];
                      console_errors := console_errors e |}
      | (Throw err, e) =>
          env w' = {| clipboard := clipboard e;
                      alerts := alerts e
                                ++ ["Failed to copy to clipboard"%string];
                      console_errors :=
                        console_errors e ++ [("Failed to copy:"%string, err)] |}
      end.
Proof.
  unfold handleCopy, try_catch, seq_action, clipboard_writeText.
  destruct (writeText text (env w)) as [[[]|err] e]; simpl; by eexists.
Qed.

(** X15. [handleCopy] of the [DiffItem] component completes normally
    whatever the clipboard does, leaves the state of the component as it
    was, writes nothing on the console and shows exactly one alert, the
    success or the failure message. *)
Theorem X15_DiffItem_handleCopy_always_completes
    (writeText : jsstring → browser → completion unit * browser)
    (text : jsstring) (w : world) :
  ∃ w', DiffItemComponent.handleCopy writeText text w = (Normal (), w')
    ∧ ui w' = ui w
    ∧ let '(r, e) := writeText text (env w) in
      env w' = {| clipboard := clipboard e;
                  alerts := alerts e
                            ++ [match r with
                                | Normal _ => "Copied to clipboard!"%string
                                | Throw _ => "Failed to copy to clipboard"%string
                                end];
                  console_errors := console_errors e |}.
Proof.
  unfold DiffItemComponent.handleCopy, try_catch, seq_action,
    clipboard_writeText.
  destruct (writeText text (env w)) as [[[]|err] e]; simpl; by eexists.
Qed.

(** ** The two panels of the [DiffItem] component *)

Section DiffItem_facts.
Variables parts1 parts2 : list jsstring.

Local Abbreviation body := (DiffItemComponent.for_body parts1 parts2).

Lemma for_body_push diff1 diff2 i :
  body (diff1, diff2) i
  = (diff1 ++ [item1 parts1 parts2 i], diff2 ++ [item2 parts1 parts2 i]).
Proof.
  unfold DiffItemComponent.for_body, item1, item2,
    DiffItemComponent.push_if, DiffItemComponent.truthy.
  destruct (decide (default [] (parts1 !! i) = default [] (parts2 !! i)))
    as [Heq|Hne]; [done|].
  destruct (decide (default [] (parts1 !! i) = [])) as [H1|H1],
           (decide (default [] (parts2 !! i) = [])) as [H2|H2];
    try congruence;
    rewrite ?(bool_decide_eq_true_2 _ H1), ?(bool_decide_eq_true_2 _ H2);
    try (rewrite (bool_decide_eq_false_2 (default [] (parts1 !! i) ≠ []))
           by tauto);
    try (rewrite (bool_decide_eq_false_2 (default [] (parts2 !! i) ≠ []))
           by tauto);
    simpl; rewrite ?H1, ?H2; done.
Qed.

Lemma foldl_for_body diff1 diff2 a n :
  foldl body (diff1, diff2) (seq a n)
  = (diff1 ++ (item1 parts1 parts2 <$> seq a n),
     diff2 ++ (item2 parts1 parts2 <$> seq a n)).
Proof.
  revert diff1 diff2 a. induction n as [|n IH]; intros diff1 diff2 a.
  - simpl. by rewrite !app_nil_r.
  - rewrite <- cons_seq, !fmap_cons. cbn [foldl].
    rewrite for_body_push, IH. by rewrite <- !app_assoc.
Qed.

Lemma diff_parts_closed :
  DiffItemComponent.diff_parts parts1 parts2
  = (item1 parts1 parts2 <$> seq 0 (length parts1 `max` length parts2),
     item2 parts1 parts2 <$> seq 0 (length parts1 `max` length parts2)).
Proof. unfold DiffItemComponent.diff_parts. by rewrite foldl_for_body. Qed.
End DiffItem_facts.

Lemma fmap_default_seq (l : list jsstring) (N : nat) :
  length l ≤ N →
  (λ k, default [] (l !! k)) <$> seq 0 N = l ++ replicate (N - length l) [].
Proof.
  intros HN. replace N with (length l + (N - length l)) at 1 by lia.
  rewrite seq_app, fmap_app. f_equal.
  - apply fmap_seq_lookup. intros k Hk. by apply lookup_default.
  - apply fmap_seq_const. intros k Hk _.
    by rewrite (proj2 (lookup_ge_None l k)) by (simpl in Hk; lia).
Qed.

Lemma panel_values (q1 q2 : jsstring) (G : ComparisonType) :
  let parts1 := DiffItemVariant.splitText q1 G in
  let parts2 := DiffItemVariant.splitText q2 G in
  let d := DiffItemComponent.diffResult q1 q2 G in
  DiffItem.value <$> d.1
  = parts1 ++ replicate (length parts2 - length parts1) []
  ∧ DiffItem.value <$> d.2
    = parts2 ++ replicate (length parts1 - length parts2) [].
Proof.
  intros parts1 parts2 d. subst d. unfold DiffItemComponent.diffResult.
  fold parts1 parts2. rewrite diff_parts_closed. simpl.
  rewrite <- !list_fmap_compose. split.
  - replace (length parts2 - length parts1)
      with (length parts1 `max` length parts2 - length parts1) by lia.
    rewrite <- fmap_default_seq by lia. done.
  - replace (length parts1 - length parts2)
      with (length parts1 `max` length parts2 - length parts2) by lia.
    rewrite <- fmap_default_seq by lia. done.
Qed.

(** X16. Both panels of the [DiffItem] component hold one item per
    position up to the length of the longer token sequence, the item at
    position [k] has index [k], and the values of a panel are the tokens of
    its query, followed by one empty value per token the other query has
    more. *)
Theorem X16_panels_hold_the_tokens (q1 q2 : jsstring) (G : ComparisonType) :
  let parts1 := DiffItemVariant.splitText q1 G in
  let parts2 := DiffItemVariant.splitText q2 G in
  let d := DiffItemComponent.diffResult q1 q2 G in
  DiffItem.value <$> d.1
  = parts1 ++ replicate (length parts2 - length parts1) []
  ∧ DiffItem.value <$> d.2
    = parts2 ++ replicate (length parts1 - length parts2) []
  ∧ DiffItem.index <$> d.1 = seq 0 (length parts1 `max` length parts2)
  ∧ DiffItem.index <$> d.2 = seq 0 (length parts1 `max` length parts2).
Proof.
  intros parts1 parts2 d.
  destruct (panel_values q1 q2 G) as [H1 H2]. do 2 (split; [done|]).
  subst d. unfold DiffItemComponent.diffResult. fold parts1 parts2.
  rewrite diff_parts_closed. simpl. rewrite <- !list_fmap_compose.
  split; (etrans; [|apply list_fmap_id]); by apply list_fmap_ext.
Qed.

(** X17. The two panels mark the same positions as unchanged, namely the
    positions at which their values are equal; the left panel never holds an
    item marked added and the right panel never one marked removed. *)
Theorem X17_panels_agree (q1 q2 : jsstring) (G : ComparisonType) :
  let d := DiffItemComponent.diffResult q1 q2 G in
  Forall2 (λ i1 i2,
      (DiffItem.type i1 = ItemUnchanged ↔ DiffItem.value i1 = DiffItem.value i2)
      ∧ (DiffItem.type i2 = ItemUnchanged
         ↔ DiffItem.value i1 = DiffItem.value i2)
      ∧ DiffItem.type i1 ≠ ItemAdded
      ∧ DiffItem.type i2 ≠ ItemRemoved)
    d.1 d.2.
Proof.
  intros d. subst d. unfold DiffItemComponent.diffResult.
  rewrite diff_parts_closed. simpl.
  apply Forall2_fmap, Forall_Forall2_diag, Forall_forall. intros k _.
  unfold item1, item2; simpl. repeat case_decide; naive_solver.
Qed.

(** X18. A query compared with itself: the two panels are equal, every
    item is marked unchanged, and the values are the tokens of the query. *)
Theorem X18_same_query_unchanged (q : jsstring) (G : ComparisonType) :
  let d := DiffItemComponent.diffResult q q G in
  d.1 = d.2
  ∧ Forall (λ i, DiffItem.type i = ItemUnchanged) d.1
  ∧ DiffItem.value <$> d.1 = DiffItemVariant.splitText q G.
Proof.
  intros d. destruct (panel_values q q G) as [Hv _]. fold d in Hv.
  rewrite Nat.sub_diag, app_nil_r in Hv. split; [|split; [|done]].
  - subst d. unfold DiffItemComponent.diffResult.
    rewrite diff_parts_closed. simpl. apply list_fmap_ext. intros i k _.
    unfold item1, item2. by repeat case_decide.
  - subst d. unfold DiffItemComponent.diffResult.
    rewrite diff_parts_closed. simpl. apply Forall_fmap, Forall_forall.
    intros k _. unfold item1; simpl. by repeat case_decide.
Qed.

(** ** The text of a panel *)

Lemma concat_with_separators (v : nat → jsstring) (sep : jsstring) N a n :
  a + n = N →
  concat ((λ k, v k ++ (if decide (k < N - 1) then sep else [])) <$> seq a n)
  = join sep (v <$> seq a n).
Proof.
  revert a. induction n as [|n IH]; intros a HN; [done|].
  rewrite <- cons_seq, !fmap_cons. cbn [concat].
  rewrite IH by lia. destruct n as [|n].
  - simpl. rewrite decide_False by lia. by rewrite !app_nil_r.
  - rewrite decide_True by lia. rewrite join_cons; [|by rewrite <- cons_seq].
    by rewrite <- app_assoc.
Qed.

Lemma join_snoc sep l x : l ≠ [] → join sep (l ++ [x]) = join sep l ++ sep ++ x.
Proof.
  induction l as [|y l IH]; [done|]. intros _.
  destruct l as [|z l]; [done|].
  change ((y :: z :: l) ++ [x]) with (y :: ((z :: l) ++ [x])).
  rewrite join_cons by done. rewrite IH by done.
  rewrite (join_cons sep y (z :: l)) by done. by rewrite <- !app_assoc.
Qed.

Lemma join_blank sep l p :
  l ≠ [] → join sep (l ++ replicate p []) = join sep l ++ concat (replicate p sep).
Proof.
  intros Hl. induction p as [|p IH]; [simpl; by rewrite !app_nil_r|].
  rewrite replicate_S_end, app_assoc, join_snoc by (by destruct l).
  rewrite IH, (replicate_S_end p sep), concat_app. simpl.
  by rewrite !app_nil_r, <- app_assoc.
Qed.

Lemma join_nil_sep l : join [] l = concat l.
Proof.
  induction l as [|x l IH]; [done|]. destruct l as [|y l].
  - simpl. by rewrite app_nil_r.
  - rewrite join_cons by done. rewrite IH. done.
Qed.

Lemma renderDiffPanel_join G parts1 parts2 :
  let d := DiffItemComponent.diff_parts parts1 parts2 in
  DiffItemComponent.renderDiffPanel G d d.1 Left
  = join (DiffItemComponent.getSeparator G)
      (parts1 ++ replicate (length parts2 - length parts1) [])
  ∧ DiffItemComponent.renderDiffPanel G d d.2 Right
    = join (DiffItemComponent.getSeparator G)
        (parts2 ++ replicate (length parts1 - length parts2) []).
Proof.
  intros d. subst d. rewrite diff_parts_closed.
  unfold DiffItemComponent.renderDiffPanel, DiffItemComponent.renderDiffItem.
  cbn [fst snd]. rewrite !length_fmap, !length_seq, <- !list_fmap_compose.
  unfold compose, item1, item2. cbn [DiffItem.value DiffItem.index].
  split.
  - rewrite (concat_with_separators (λ k, default [] (parts1 !! k))) by lia.
    rewrite fmap_default_seq by lia.
    by replace (length parts1 `max` length parts2 - length parts1)
      with (length parts2 - length parts1) by lia.
  - rewrite (concat_with_separators (λ k, default [] (parts2 !! k))) by lia.
    rewrite fmap_default_seq by lia.
    by replace (length parts1 `max` length parts2 - length parts2)
      with (length parts1 - length parts2) by lia.
Qed.

(** X19. At [Characters] granularity the text of each panel is the query
    of that panel. *)
Theorem X19_panel_text_characters (q1 q2 : jsstring) :
  let d := DiffItemComponent.diffResult q1 q2 Characters in
  DiffItemComponent.renderDiffPanel Characters d d.1 Left = q1
  ∧ DiffItemComponent.renderDiffPanel Characters d d.2 Right = q2.
Proof.
  intros d. subst d. unfold DiffItemComponent.diffResult.
  destruct (renderDiffPanel_join Characters
              (DiffItemVariant.splitText q1 Characters)
              (DiffItemVariant.splitText q2 Characters)) as [-> ->].
  assert (∀ q p, concat (split_empty q ++ replicate p []) = q) as H.
  { intros q p. rewrite concat_app.
    replace (concat (replicate p ([] : jsstring))) with ([] : jsstring)
      by (induction p; [done|by simpl]).
    rewrite app_nil_r. unfold split_empty.
    induction q as [|c q IH]; [done|]. simpl. f_equal. exact IH. }
  simpl. by rewrite !join_nil_sep, !H.
Qed.

(** X20. At [Lines] granularity the text of each panel is the query of
    that panel, followed by one line feed per line the other query has
    more. *)
Theorem X20_panel_text_lines (q1 q2 : jsstring) :
  let d := DiffItemComponent.diffResult q1 q2 Lines in
  let n1 := length (DiffItemVariant.splitText q1 Lines) in
  let n2 := length (DiffItemVariant.splitText q2 Lines) in
  DiffItemComponent.renderDiffPanel Lines d d.1 Left
  = q1 ++ replicate (n2 - n1) LF
  ∧ DiffItemComponent.renderDiffPanel Lines d d.2 Right
    = q2 ++ replicate (n1 - n2) LF.
Proof.
  intros d n1 n2. subst d n1 n2. unfold DiffItemComponent.diffResult.
  destruct (renderDiffPanel_join Lines
              (DiffItemVariant.splitText q1 Lines)
              (DiffItemVariant.splitText q2 Lines)) as [-> ->].
  assert (∀ p, concat (replicate p [LF]) = replicate p LF) as Hrep
    by (induction p as [|p IH]; [done|]; simpl; by rewrite IH).
  simpl. unfold split_string.
  rewrite !join_blank by apply split_at_char_nonempty.
  by rewrite !join_split_at_char, !Hrep.
Qed.

(** X21. At [Words] granularity the text of each panel is its values
    joined by single spaces, the values being the words of its query
    followed by one empty value per word the other query has more: runs of
    white space of the query are shown as one space, and white space at its
    ends is not shown. *)
Theorem X21_panel_text_words (q1 q2 : jsstring) :
  let d := DiffItemComponent.diffResult q1 q2 Words in
  let words1 := DiffItemVariant.splitText q1 Words in
  let words2 := DiffItemVariant.splitText q2 Words in
  DiffItemComponent.renderDiffPanel Words d d.1 Left
  = join [32%N] (words1 ++ replicate (length words2 - length words1) [])
  ∧ DiffItemComponent.renderDiffPanel Words d d.2 Right
    = join [32%N] (words2 ++ replicate (length words1 - length words2) [])
  ∧ Forall whitespace_free words1 ∧ Forall whitespace_free words2.
Proof.
  intros d words1 words2. subst d. unfold DiffItemComponent.diffResult.
  fold words1 words2.
  destruct (renderDiffPanel_join Words words1 words2) as [-> ->].
  do 2 (split; [done|]).
  assert (∀ q, Forall whitespace_free (DiffItemVariant.splitText q Words)) as H.
  { intros q. apply Forall_forall. intros t [_ Hin]%elem_of_filter_nonempty.
    pose proof (split_scan_plain_free false [] q) as Hk.
    rewrite Forall_forall in Hk. apply Hk; [constructor|done]. }
  split; apply H.
Qed.
